(** * TimerLib: wrap-safe tick accounting on a free-running hardware timer

    A shallow embedding of [TimerLib.c] / [TimerLib.h].  Every C integer is a
    [Z] whose wrap-around is written out ([wrap32] for [uint32_t], [wrap64]
    for [uint64_t]).  The file-scope variables of the C unit form the record
    [Globals]; caller-owned [TimerLib_Handle] structs live in a memory
    indexed by address.  The timer peripheral and the update interrupt are
    the environment: a finite trace says how many timer ticks elapse before
    each volatile access of a sampling attempt. *)

From Stdlib Require Import ZArith NArith Lia Bool List.
From stdpp Require Import base option gmap.
Import ListNotations.

Local Open Scope Z_scope.

(** ** Machine integers *)

Definition wrap32 (x : Z) : Z := x mod 2 ^ 32.
Definition wrap64 (x : Z) : Z := x mod 2 ^ 64.

Definition uint32 (x : Z) : Prop := 0 <= x < 2 ^ 32.
Definition uint64 (x : Z) : Prop := 0 <= x < 2 ^ 64.

(** ** Data model *)

(** [TimerLib_Handle] of TimerLib.h. *)
Record TimerLib_Handle : Type := mkHandle {
  last_cnt : Z;
  last_overflow : Z
}.

(** The anonymous struct [optim] of TimerLib.c. *)
Record Optim : Type := mkOptim {
  us_optimized : bool;
  us_per_tick : Z;
  ns_optimized : bool;
  ns_per_tick : Z;
  overflowPreMS : Z
}.

(** The file-scope variables of TimerLib.c. *)
Record Globals : Type := mkGlobals {
  arr_value : Z;
  clock_freq : Z;
  overflow_counter : Z;
  optim : Optim
}.

(** Modelled from the spec: the timer peripheral behind
    [LL_TIM_GetCounter(TIM1)] (tim.h and the vendor driver are not part of
    the sources).  The spec describes it as a free-running count in
    [0, reload) that wraps back to zero, each wrap delivering exactly one
    overflow notification that is visible before the counter can be
    observed past the wrap. *)
Record Timer : Type := mkTimer {
  CNT : Z;
  ARR : Z
}.

Record World : Type := mkWorld {
  glob : Globals;
  TIM1 : Timer;
  mem : gmap N TimerLib_Handle
}.

Definition with_glob (g : Globals) (w : World) : World :=
  mkWorld g (TIM1 w) (mem w).

Definition with_arr_value (v : Z) (g : Globals) : Globals :=
  mkGlobals v (clock_freq g) (overflow_counter g) (optim g).

Definition with_clock_freq (v : Z) (g : Globals) : Globals :=
  mkGlobals (arr_value g) v (overflow_counter g) (optim g).

Definition with_overflow_counter (v : Z) (g : Globals) : Globals :=
  mkGlobals (arr_value g) (clock_freq g) v (optim g).

Definition with_optim (o : Optim) (g : Globals) : Globals :=
  mkGlobals (arr_value g) (clock_freq g) (overflow_counter g) o.

Definition with_us_optimized (b : bool) (o : Optim) : Optim :=
  mkOptim b (us_per_tick o) (ns_optimized o) (ns_per_tick o) (overflowPreMS o).

Definition with_us_per_tick (v : Z) (o : Optim) : Optim :=
  mkOptim (us_optimized o) v (ns_optimized o) (ns_per_tick o) (overflowPreMS o).

Definition with_ns_optimized (b : bool) (o : Optim) : Optim :=
  mkOptim (us_optimized o) (us_per_tick o) b (ns_per_tick o) (overflowPreMS o).

Definition with_ns_per_tick (v : Z) (o : Optim) : Optim :=
  mkOptim (us_optimized o) (us_per_tick o) (ns_optimized o) v (overflowPreMS o).

Definition with_overflowPreMS (v : Z) (o : Optim) : Optim :=
  mkOptim (us_optimized o) (us_per_tick o) (ns_optimized o) (ns_per_tick o) v.

Definition with_CNT (v : Z) (w : World) : World :=
  mkWorld (glob w) (mkTimer v (ARR (TIM1 w))) (mem w).

Definition store_handle (htim : N) (h : TimerLib_Handle) (w : World) : World :=
  mkWorld (glob w) (TIM1 w) (<[htim := h]> (mem w)).

(** ** The environment: interrupt and timer *)

(** [TimerLib_HandleUpdateIRQ]: [overflow_counter++]. *)
Definition TimerLib_HandleUpdateIRQ (w : World) : World :=
  with_glob
    (with_overflow_counter (wrap32 (overflow_counter (glob w) + 1)) (glob w)) w.

(** Modelled from the spec: one tick of the timer.  The count advances;
    when it reaches the reload value it restarts from zero and the update
    interrupt runs [TimerLib_HandleUpdateIRQ] before the program can make
    another access. *)
Definition hw_tick (w : World) : World :=
  if CNT (TIM1 w) + 1 <? ARR (TIM1 w)
  then with_CNT (CNT (TIM1 w) + 1) w
  else TimerLib_HandleUpdateIRQ (with_CNT 0 w).

Definition advance (n : N) (w : World) : World := N.iter n hw_tick w.

(** [get_current_cnt]: the raw counter read. *)
Definition get_current_cnt (w : World) : Z := CNT (TIM1 w).

(** One attempt of the read / count / re-read loop makes three volatile
    accesses; a [probe] gives the number of timer ticks that elapse before
    each of them. *)
Record probe : Type := mkProbe {
  d_ovf : N;
  d_cnt : N;
  d_chk : N
}.

(** The instant at which an attempt reads the counter, and the instant at
    which it ends. *)
Definition at_count (p : probe) (w : World) : World :=
  advance (d_cnt p) (advance (d_ovf p) w).

Definition after_probe (p : probe) (w : World) : World :=
  advance (d_chk p) (at_count p w).

(** Passage of time alone over a stretch of the trace. *)
Definition elapse (used : list probe) (w : World) : World :=
  fold_left (fun w p => after_probe p w) used w.

(** ** Outcomes and the monad of the library's operations *)

Inductive fault : Type :=
| DivisionByZero
| InvalidHandle.

Inductive result (A : Type) : Type :=
| Ret (a : A)
| Fault (f : fault)
| Spin.
Arguments Ret {A} a.
Arguments Fault {A} f.
Arguments Spin {A}.

(** An operation runs on a world and a trace; it yields a value, the world
    it leaves behind and the unread part of the trace.  [Spin] means the
    trace ended while the operation was still inside a loop. *)
Definition M (A : Type) : Type :=
  World -> list probe -> result (A * World * list probe).

#[global] Instance M_ret : MRet M := fun A a w env => Ret (a, w, env).

#[global] Instance M_bind : MBind M := fun A B f m w env =>
  match m w env with
  | Ret (a, w', env') => f a w' env'
  | Fault e => Fault e
  | Spin => Spin
  end.

Definition get_glob : M Globals := fun w env => Ret (glob w, w, env).
Definition modify_glob (f : Globals -> Globals) : M unit :=
  fun w env => Ret (tt, with_glob (f (glob w)) w, env).
Definition modify_optim (f : Optim -> Optim) : M unit :=
  modify_glob (fun g => with_optim (f (optim g)) g).
Definition raise {A : Type} (e : fault) : M A := fun _ _ => Fault e.

(** Unsigned division; dividing by zero is undefined in C. *)
Definition udiv (a b : Z) : M Z :=
  if b =? 0 then raise DivisionByZero else mret (a / b).

Definition load_handle (htim : N) : M TimerLib_Handle := fun w env =>
  match mem w !! htim with
  | Some h => Ret (h, w, env)
  | None => Fault InvalidHandle
  end.

Definition write_handle (htim : N) (h : TimerLib_Handle) : M unit :=
  fun w env => Ret (tt, store_handle htim h w, env).

(** ** Atomic sampling *)

Record Sample : Type := mkSample {
  cnt : Z;
  ovf : Z
}.

(** The loop
    [do { ovf = overflow_counter; cnt = get_current_cnt(); }
     while (ovf != overflow_counter);]
    that opens every sampling routine of TimerLib.c. *)
Fixpoint atomic_read_from (env : list probe) (w : World)
  : result (Sample * World * list probe) :=
  match env with
  | [] => Spin
  | p :: rest =>
      let w1 := advance (d_ovf p) w in
      let o := overflow_counter (glob w1) in
      let w2 := advance (d_cnt p) w1 in
      let c := get_current_cnt w2 in
      let w3 := advance (d_chk p) w2 in
      if negb (o =? overflow_counter (glob w3))
      then atomic_read_from rest w3
      else Ret (mkSample c o, w3, rest)
  end.

Definition atomic_read : M Sample := fun w env => atomic_read_from env w.

(** ** Configuration *)

Definition TimerLib_GlobalInit (arr clk_freq : Z) : M unit :=
  modify_glob (with_arr_value arr);;
  modify_glob (with_clock_freq clk_freq);;
  modify_glob (with_overflow_counter 0);;
  modify_optim (with_us_optimized (clk_freq mod 1000000 =? 0));;
  modify_optim (with_us_per_tick (clk_freq / 1000000));;
  modify_optim (with_ns_optimized (clk_freq mod 1000000000 =? 0));;
  g ← get_glob;
  (if ns_optimized (optim g)
   then modify_optim (with_ns_per_tick (clk_freq / 1000000000))
   else mret tt);;
  g ← get_glob;
  q ← udiv clk_freq (arr_value g);
  modify_optim (with_overflowPreMS (q / 1000)).

(** ** Handles and tick deltas *)

Definition TimerLib_InitHandle (htim : N) : M unit :=
  s ← atomic_read;
  write_handle htim (mkHandle (cnt s) (ovf s)).

(** The arithmetic of [calculate_ticks] between the sample and the return. *)
Definition ticks_between (arr : Z) (h : TimerLib_Handle) (cur : Sample) : Z :=
  let '(delta_cnt, delta_ovf) :=
    if cnt cur >=? last_cnt h
    then (wrap32 (cnt cur - last_cnt h),
          wrap32 (ovf cur - last_overflow h))
    else (wrap32 (wrap32 (arr - last_cnt h) + cnt cur),
          wrap32 (wrap32 (ovf cur - last_overflow h) - 1))
  in wrap32 (wrap32 (delta_ovf * arr) + delta_cnt).

Definition calculate_ticks (htim : N) : M Z :=
  cur ← atomic_read;
  h ← load_handle htim;
  g ← get_glob;
  write_handle htim (mkHandle (cnt cur) (ovf cur));;
  mret (ticks_between (arr_value g) h cur).

Definition calculate_Timestamp : M Z :=
  cur ← atomic_read;
  g ← get_glob;
  mret (wrap64 (wrap64 (ovf cur * arr_value g) + cnt cur)).

(** ** Tick-to-duration conversion *)

(** A floating-point result is kept symbolic: the integer that C converts
    to floating point, and the power of ten it is then scaled down by
    ([FInt q] is [(float) q], [FScaled q e] is [q * 1e-e]). *)
Inductive fvalue : Type :=
| FInt (q : Z)
| FScaled (q : Z) (e : Z).

Definition TimerLib_GetTimestamp_us : M Z :=
  ticks ← calculate_Timestamp;
  g ← get_glob;
  if us_optimized (optim g)
  then udiv ticks (us_per_tick (optim g))
  else udiv (wrap64 (ticks * 1000000)) (clock_freq g).

Definition TimerLib_GetTimestamp_sf : M fvalue :=
  ticks ← calculate_Timestamp;
  g ← get_glob;
  if us_optimized (optim g)
  then q ← udiv ticks (us_per_tick (optim g)); mret (FInt q)
  else q ← udiv ticks (clock_freq g); mret (FScaled q 6).

Definition TimerLib_GetTimestamp_df : M fvalue :=
  ticks ← calculate_Timestamp;
  g ← get_glob;
  if us_optimized (optim g)
  then q ← udiv ticks (us_per_tick (optim g)); mret (FScaled q 9)
  else q ← udiv ticks (clock_freq g); mret (FScaled q 9).

Definition TimerLib_GetInterval_us (htim : N) : M Z :=
  ticks ← calculate_ticks htim;
  g ← get_glob;
  if us_optimized (optim g)
  then udiv ticks (us_per_tick (optim g))
  else q ← udiv (wrap64 (ticks * 1000000)) (clock_freq g); mret (wrap32 q).

Definition TimerLib_GetInterval_sf (htim : N) : M fvalue :=
  ticks ← calculate_ticks htim;
  g ← get_glob;
  if us_optimized (optim g)
  then q ← udiv ticks (us_per_tick (optim g)); mret (FScaled q 6)
  else q ← udiv ticks (clock_freq g); mret (FScaled q 6).

Definition TimerLib_GetInterval_df (htim : N) : M fvalue :=
  ticks ← calculate_ticks htim;
  g ← get_glob;
  if ns_optimized (optim g)
  then q ← udiv ticks (ns_per_tick (optim g)); mret (FScaled q 9)
  else q ← udiv ticks (clock_freq g); mret (FScaled q 9).

Definition TimerLib_GetInterval_ns (htim : N) : M Z :=
  ticks ← calculate_ticks htim;
  g ← get_glob;
  if ns_optimized (optim g)
  then udiv ticks (ns_per_tick (optim g))
  else q ← udiv (wrap64 (ticks * 1000000000)) (clock_freq g); mret (wrap32 q).

(** ** Busy-wait delays *)

(** Elapsed ticks as the wait loops of [TimerLib_DelayNS],
    [TimerLib_DelayUS] and [TimerLib_DelayUS_32] compute them. *)
Definition delay_elapsed (arr : Z) (start cur : Sample) : Z :=
  if ovf cur =? ovf start
  then wrap32 (cnt cur - cnt start)
  else wrap32
         (wrap32 (wrap32 (arr - cnt start)
                  + wrap32 (wrap32 (wrap32 (ovf cur - ovf start) - 1) * arr))
          + cnt cur).

(** Elapsed ticks as the wait loop of [TimerLib_DelayUS_32Short] computes
    them: at most one wrap is taken into account. *)
Definition short_elapsed (arr : Z) (start cur : Sample) : Z :=
  if ovf cur >? ovf start
  then wrap32 (wrap32 (arr - cnt start) + cnt cur)
  else wrap32 (cnt cur - cnt start).

(** The [while (1) { sample; if (elapsed >= delay_ticks) break; }] loop.
    Every round reads at least one probe, so [length env] rounds exhaust
    any trace. *)
Fixpoint wait_loop (fuel : nat) (reached : Sample -> bool) : M unit :=
  match fuel with
  | O => fun _ _ => Spin
  | S fuel' =>
      cur ← atomic_read;
      if reached cur then mret tt else wait_loop fuel' reached
  end.

Definition spin_until (reached : Sample -> bool) : M unit :=
  fun w env => wait_loop (length env) reached w env.

Definition DelayNS_ticks (g : Globals) (ns : Z) : Z :=
  wrap64 (ns * clock_freq g) / 1000000000.

Definition DelayUS_ticks (g : Globals) (us : Z) : Z :=
  if us_optimized (optim g)
  then wrap32 (us * us_per_tick (optim g))
  else wrap64 (us * clock_freq g) / 1000000.

Definition DelayUS_32_ticks (g : Globals) (us : Z) : Z :=
  if us_optimized (optim g)
  then wrap32 (us * us_per_tick (optim g))
  else wrap32 (us * clock_freq g) / 1000000.

Definition TimerLib_DelayNS (ns : Z) : M unit :=
  start ← atomic_read;
  g ← get_glob;
  let delay_ticks := DelayNS_ticks g ns in
  spin_until (fun cur => delay_elapsed (arr_value g) start cur >=? delay_ticks).

Definition TimerLib_DelayUS (us : Z) : M unit :=
  start ← atomic_read;
  g ← get_glob;
  let delay_ticks := DelayUS_ticks g us in
  spin_until (fun cur => delay_elapsed (arr_value g) start cur >=? delay_ticks).

Definition TimerLib_DelayUS_32 (us : Z) : M unit :=
  start ← atomic_read;
  g ← get_glob;
  let delay_ticks := DelayUS_32_ticks g us in
  spin_until (fun cur => delay_elapsed (arr_value g) start cur >=? delay_ticks).

Definition short_delay_ok (g : Globals) (us : Z) : bool :=
  us_optimized (optim g) && (us <? 1000) && (overflowPreMS (optim g) <=? 1).

Definition TimerLib_DelayUS_32Short (us : Z) : M Z :=
  start ← atomic_read;
  g ← get_glob;
  if negb (short_delay_ok g us)
  then mret (-1)
  else
    let delay_ticks := wrap32 (us * us_per_tick (optim g)) in
    spin_until
      (fun cur => short_elapsed (arr_value g) start cur >=? delay_ticks);;
    mret 0.

(** ** The specification's formulas, over unbounded integers *)

(** The elapsed-tick formula in the words of the specification (4.3):
    [reload] is the reload value, [base] the handle's baseline, [cur] the
    current sample.  No wrap-around is applied. *)
Definition ElapsedTicks_spec (reload : Z) (base : TimerLib_Handle)
    (cur : Sample) : Z :=
  if cnt cur >=? last_cnt base
  then (ovf cur - last_overflow base) * reload + (cnt cur - last_cnt base)
  else (ovf cur - last_overflow base - 1) * reload
       + (reload - last_cnt base) + cnt cur.

(** The conversions in the words of the specification (4.4), over
    unbounded integers. *)
Definition us_of_ticks_spec (g : Globals) (ticks : Z) : Z :=
  if us_optimized (optim g)
  then ticks / us_per_tick (optim g)
  else ticks * 1000000 / clock_freq g.

Definition ns_of_ticks_spec (g : Globals) (ticks : Z) : Z :=
  if ns_optimized (optim g)
  then ticks / ns_per_tick (optim g)
  else ticks * 1000000000 / clock_freq g.

(** ** Predicates on worlds, traces and outcomes *)

(** Congruence modulo 2^32, as a relation to rewrite with: reductions of
    subterms drop out under [+], [-] and [*]. *)
Inductive cong32 (a b : Z) : Prop :=
| cong32_intro : wrap32 a = wrap32 b -> cong32 a b.

(** Every 32-bit variable and register of a world holds a 32-bit value. *)
Definition wf_world (w : World) : Prop :=
  uint32 (arr_value (glob w))
  /\ uint32 (overflow_counter (glob w))
  /\ uint32 (CNT (TIM1 w))
  /\ uint32 (ARR (TIM1 w)).

(** The configuration [TimerLib_GlobalInit arr clk_freq] stores on top of
    the globals [g]. *)
Definition configured_globals (arr clk_freq : Z) (g : Globals) : Globals :=
  mkGlobals arr clk_freq 0
    (mkOptim (clk_freq mod 1000000 =? 0)
             (clk_freq / 1000000)
             (clk_freq mod 1000000000 =? 0)
             (if clk_freq mod 1000000000 =? 0
              then clk_freq / 1000000000
              else ns_per_tick (optim g))
             (clk_freq / arr / 1000)).

(** The divisors of the conversion routines are usable. *)
Definition divisors_ok (g : Globals) : Prop :=
  0 < clock_freq g
  /\ (us_optimized (optim g) = true -> 1 <= us_per_tick (optim g))
  /\ (ns_optimized (optim g) = true -> 1 <= ns_per_tick (optim g)).

Definition no_division_by_zero {A : Type} (r : result A) : Prop :=
  r <> Fault DivisionByZero.

(** The same outcome in a world changed by [f]. *)
Definition on_world {A : Type} (f : World -> World)
    (r : result (A * World * list probe)) : result (A * World * list probe) :=
  match r with
  | Ret (a, w, env) => Ret (a, f w, env)
  | Fault e => Fault e
  | Spin => Spin
  end.

(** An attempt during which the timer does not tick at all. *)
Definition still : probe := mkProbe 0 0 0.

(** A trace during which the timer does not tick. *)
Definition quiet (env : list probe) : Prop :=
  forall p, In p env -> p = still.

(** An attempt during which the timer does not tick between the first
    read of the overflow counter and the re-read. *)
Definition stable (p : probe) : Prop := d_cnt p = 0%N /\ d_chk p = 0%N.

(** A wait loop that runs from [(w, env)] and leaves at [(w', rest)]:
    every sample before the last one showed fewer than [T] elapsed ticks,
    and the loop left at the first sample that showed [T] or more. *)
Inductive spins (elapsed : Sample -> Z) (T : Z)
  : World -> list probe -> World -> list probe -> Prop :=
| spins_hit w env cur w' rest :
    atomic_read w env = Ret (cur, w', rest) ->
    T <= elapsed cur ->
    spins elapsed T w env w' rest
| spins_miss w env cur w1 env1 w' rest :
    atomic_read w env = Ret (cur, w1, env1) ->
    elapsed cur < T ->
    spins elapsed T w1 env1 w' rest ->
    spins elapsed T w env w' rest.

(** ** Sample worlds *)

Definition optim0 : Optim := mkOptim false 0 false 0 0.
Definition globals0 : Globals := mkGlobals 0 0 0 optim0.

(** The state of a freshly started program: zero-initialised statics, a
    timer with the given reload value, no handle yet. *)
Definition boot (reload : Z) : World :=
  mkWorld globals0 (mkTimer 0 reload) ∅.

(** An 8 MHz timer with reload 8000, configured by
    [TimerLib_GlobalInit 8000 8000000]: one overflow per millisecond. *)
Definition world_8MHz : World :=
  with_glob (configured_globals 8000 8000000 globals0) (boot 8000).

(** A 72 MHz timer with reload 65536, five seconds (360000000 ticks) after
    the handle at address 1 was taken. *)
Definition world_5s : World :=
  mkWorld (mkGlobals 65536 72000000 5493 (mkOptim true 72 false 0 1))
          (mkTimer 10752 65536)
          {[ 1%N := mkHandle 0 0 ]}.

(** The same timer after 65536 overflows (2^32 ticks) since the handle at
    address 1 was taken at count 0. *)
Definition world_2pow32 : World :=
  mkWorld (mkGlobals 65536 72000000 65536 (mkOptim true 72 false 0 1))
          (mkTimer 0 65536)
          {[ 1%N := mkHandle 0 0 ]}.


Definition world_late : World :=
  mkWorld (mkGlobals 65536 72000000 0 (mkOptim true 72 false 0 1))
          (mkTimer 60000 65536)
          ∅.

(** A 1.5 MHz configuration (not a whole number of ticks per
    microsecond). *)
Definition globals_1500kHz : Globals :=
  mkGlobals 65536 1500000 0 (mkOptim false 1 false 0 0).

(** A 1.5 MHz timer with reload 65536 after 300000000 overflows (about
    151 days). *)
Definition world_151d : World :=
  mkWorld (with_overflow_counter 300000000 globals_1500kHz)
          (mkTimer 0 65536)
          ∅.

(** ** Real time *)

(** The number of timer ticks that pass during one attempt, and during a
    stretch of the trace. *)
Definition span (p : probe) : N := (d_ovf p + d_cnt p + d_chk p)%N.

Definition duration (used : list probe) : N :=
  fold_right (fun p n => (span p + n)%N) 0%N used.

(** The position of the timer in ticks: overflows times reload value, plus
    the count. *)
Definition stamp (w : World) : Z :=
  overflow_counter (glob w) * ARR (TIM1 w) + CNT (TIM1 w).

(** The count lies below the reload value. *)
Definition hw_ok (w : World) : Prop := 0 <= CNT (TIM1 w) < ARR (TIM1 w).

(** The library was configured with the reload value of the timer. *)
Definition reload_matches (w : World) : Prop :=
  arr_value (glob w) = ARR (TIM1 w).

(** No attempt of the trace lasts 2^32 ticks between its first and its
    last access. *)
Definition brisk (env : list probe) : Prop :=
  forall p, In p env -> (d_cnt p + d_chk p < 2 ^ 32)%N.

(** A delay that started in world [w] on the trace [env] and left the
    trace [rest] waited [T] ticks: [env1] is the trace its baseline
    sampling left, so [p0] is the attempt that gave the baseline and
    [plast] the attempt on whose sample the delay returned; between the
    read of the counter in [p0] and the read of the counter in [plast]
    at least [T] timer ticks passed. *)
Definition waited (w : World) (env rest : list probe) (T : Z) : Prop :=
  exists start w1 env1 used0 p0 mid plast,
    atomic_read w env = Ret (start, w1, env1)
    /\ env = used0 ++ p0 :: env1
    /\ env1 = mid ++ plast :: rest
    /\ T <= Z.of_N (d_chk p0 + duration mid + d_ovf plast + d_cnt plast).

(** A call that changed nothing but let time pass: it read the stretch
    [used] of the trace, and left the world that stretch of time leaves. *)
Definition only_time_passed (w : World) (env : list probe)
    (w' : World) (rest : list probe) : Prop :=
  exists used, env = used ++ rest /\ w' = elapse used w.

(** The world [w] with another value in the field [ns_per_tick]. *)
Definition with_stale_ns (v : Z) (w : World) : World :=
  with_glob (with_optim (with_ns_per_tick v (optim (glob w))) (glob w)) w.

(** [n] overflow notifications in a row. *)
Definition notify (n : N) (w : World) : World :=
  N.iter n TimerLib_HandleUpdateIRQ w.

(** * Properties *)

(** ** Modular arithmetic *)

Lemma wrap32_range x : uint32 (wrap32 x).
Proof. unfold uint32, wrap32. apply Z.mod_pos_bound. lia. Qed.

Lemma wrap64_range x : uint64 (wrap64 x).
Proof. unfold uint64, wrap64. apply Z.mod_pos_bound. lia. Qed.

Lemma wrap32_small x : uint32 x -> wrap32 x = x.
Proof. unfold uint32, wrap32. intros H. apply Z.mod_small. lia. Qed.

Lemma wrap64_small x : uint64 x -> wrap64 x = x.
Proof. unfold uint64, wrap64. intros H. apply Z.mod_small. lia. Qed.

Lemma cong32_eq a b : cong32 a b -> wrap32 a = wrap32 b.
Proof. now intros []. Qed.

#[local] Instance cong32_equiv : Equivalence cong32.
Proof.
  split.
  - intros a. now constructor.
  - intros a b []. now constructor.
  - intros a b c [H1] [H2]. constructor. congruence.
Qed.

#[local] Instance cong32_add : Proper (cong32 ==> cong32 ==> cong32) Z.add.
Proof.
  intros a a' [Ha] b b' [Hb]. constructor. unfold wrap32 in *.
  rewrite (Z.add_mod a), (Z.add_mod a') by lia. now rewrite Ha, Hb.
Qed.

#[local] Instance cong32_sub : Proper (cong32 ==> cong32 ==> cong32) Z.sub.
Proof.
  intros a a' [Ha] b b' [Hb]. constructor. unfold wrap32 in *.
  rewrite (Zminus_mod a), (Zminus_mod a'). now rewrite Ha, Hb.
Qed.

#[local] Instance cong32_mul : Proper (cong32 ==> cong32 ==> cong32) Z.mul.
Proof.
  intros a a' [Ha] b b' [Hb]. constructor. unfold wrap32 in *.
  rewrite (Z.mul_mod a), (Z.mul_mod a') by lia. now rewrite Ha, Hb.
Qed.

Lemma cong32_wrap a : cong32 (wrap32 a) a.
Proof. constructor. unfold wrap32. apply Zmod_mod. Qed.

Ltac wrap32_ring :=
  apply cong32_eq;
  repeat rewrite cong32_wrap;
  match goal with |- cong32 ?a ?b => replace a with b by ring end;
  reflexivity.

Lemma ticks_between_spec arr h cur :
  ticks_between arr h cur = wrap32 (ElapsedTicks_spec arr h cur).
Proof.
  unfold ticks_between, ElapsedTicks_spec.
  destruct (cnt cur >=? last_cnt h); wrap32_ring.
Qed.

(** Both branches of the formula are the same number. *)
Lemma ElapsedTicks_spec_flat reload base cur :
  ElapsedTicks_spec reload base cur
  = (ovf cur - last_overflow base) * reload + cnt cur - last_cnt base.
Proof. unfold ElapsedTicks_spec. destruct (_ >=? _); ring. Qed.

Lemma delay_elapsed_spec arr start cur :
  delay_elapsed arr start cur
  = ticks_between arr (mkHandle (cnt start) (ovf start)) cur.
Proof.
  rewrite ticks_between_spec, ElapsedTicks_spec_flat. unfold delay_elapsed.
  simpl. destruct (Z.eqb_spec (ovf cur) (ovf start)) as [->|_]; wrap32_ring.
Qed.

(** ** The monad *)

Lemma bind_Ret {A B} (m : M A) (f : A -> M B) w env a w' env' :
  m w env = Ret (a, w', env') -> (m ≫= f) w env = f a w' env'.
Proof. intros H. unfold mbind, M_bind. now rewrite H. Qed.

Lemma bind_Fault {A B} (m : M A) (f : A -> M B) w env e :
  m w env = Fault e -> (m ≫= f) w env = Fault e.
Proof. intros H. unfold mbind, M_bind. now rewrite H. Qed.

Lemma bind_Spin {A B} (m : M A) (f : A -> M B) w env :
  m w env = Spin -> (m ≫= f) w env = Spin.
Proof. intros H. unfold mbind, M_bind. now rewrite H. Qed.

Lemma bind_Ret_inv {A B} (m : M A) (f : A -> M B) w env b w2 env2 :
  (m ≫= f) w env = Ret (b, w2, env2) ->
  exists a w1 env1, m w env = Ret (a, w1, env1) /\ f a w1 env1 = Ret (b, w2, env2).
Proof.
  unfold mbind, M_bind. destruct (m w env) as [[[a w1] env1]| |]; try discriminate.
  intros H. now exists a, w1, env1.
Qed.

(** ** The environment leaves configuration and handles alone *)

(** What a passage of time cannot change: the handles, the configuration
    and the reload register.  Only the count and the overflow counter move. *)
Record env_frame (w w' : World) : Prop := mk_env_frame {
  fr_mem : mem w' = mem w;
  fr_arr : arr_value (glob w') = arr_value (glob w);
  fr_clk : clock_freq (glob w') = clock_freq (glob w);
  fr_optim : optim (glob w') = optim (glob w);
  fr_ARR : ARR (TIM1 w') = ARR (TIM1 w)
}.

Lemma env_frame_refl w : env_frame w w.
Proof. now split. Qed.

Lemma env_frame_trans w1 w2 w3 :
  env_frame w1 w2 -> env_frame w2 w3 -> env_frame w1 w3.
Proof. intros [] []. split; congruence. Qed.

Lemma hw_tick_frame w : env_frame w (hw_tick w).
Proof. unfold hw_tick. destruct (_ <? _); now split. Qed.

Lemma advance_frame n w : env_frame w (advance n w).
Proof.
  unfold advance. apply N.iter_invariant.
  - intros w' H. eapply env_frame_trans; [exact H | apply hw_tick_frame].
  - apply env_frame_refl.
Qed.

Lemma after_probe_frame p w : env_frame w (after_probe p w).
Proof.
  unfold after_probe, at_count.
  repeat (eapply env_frame_trans; [| apply advance_frame]).
  apply env_frame_refl.
Qed.

Lemma elapse_frame used w : env_frame w (elapse used w).
Proof.
  revert w. induction used as [|p used IH]; intros w; simpl.
  - apply env_frame_refl.
  - eapply env_frame_trans; [apply after_probe_frame | apply IH].
Qed.

Lemma elapse_app used1 used2 w :
  elapse (used1 ++ used2) w = elapse used2 (elapse used1 w).
Proof. unfold elapse. apply fold_left_app. Qed.

(** ** What the sampling loop returns *)

(** A returned sample stems from one attempt [p] of the trace: the
    attempts before it were retried, the overflow counter was read
    [d_ovf p] ticks into the attempt, the count [d_cnt p] ticks later, and
    the loop left when the re-read agreed. *)
Lemma atomic_read_inv env w s w' rest :
  atomic_read w env = Ret (s, w', rest) ->
  exists used p,
    env = used ++ p :: rest
    /\ ovf s = overflow_counter (glob (advance (d_ovf p) (elapse used w)))
    /\ cnt s = get_current_cnt (at_count p (elapse used w))
    /\ w' = after_probe p (elapse used w)
    /\ overflow_counter (glob w') = ovf s.
Proof.
  unfold atomic_read. revert w.
  induction env as [|p env IH]; intros w; simpl; [discriminate|].
  destruct (Z.eqb_spec
              (overflow_counter (glob (advance (d_ovf p) w)))
              (overflow_counter
                 (glob (advance (d_chk p)
                          (advance (d_cnt p) (advance (d_ovf p) w))))))
    as [Heq|Hne]; simpl.
  - intros [= <- <- <-]. exists [], p. simpl. unfold after_probe, at_count.
    repeat split; auto.
  - intros H. destruct (IH _ H) as (used & q & -> & Ho & Hc & Hw & Hs).
    exists (p :: used), q. simpl. repeat split; auto.
Qed.

Lemma atomic_read_elapse env w s w' rest :
  atomic_read w env = Ret (s, w', rest) ->
  exists used, env = used ++ rest /\ w' = elapse used w.
Proof.
  intros H. destruct (atomic_read_inv _ _ _ _ _ H) as (used & p & -> & _ & _ & -> & _).
  exists (used ++ [p]). rewrite <- app_assoc. split; [reflexivity|].
  now rewrite elapse_app.
Qed.

Lemma atomic_read_frame env w s w' rest :
  atomic_read w env = Ret (s, w', rest) -> env_frame w w'.
Proof.
  intros H. destruct (atomic_read_elapse _ _ _ _ _ H) as (used & _ & ->).
  apply elapse_frame.
Qed.

Lemma atomic_read_no_fault env w e : atomic_read w env <> Fault e.
Proof.
  unfold atomic_read. revert w. induction env as [|p env IH]; intros w; simpl.
  - discriminate.
  - destruct (negb _); [apply IH | discriminate].
Qed.

(** Every attempt reads one probe: the trace gets strictly shorter. *)
Lemma atomic_read_shorter env w s w' rest :
  atomic_read w env = Ret (s, w', rest) -> (length rest < length env)%nat.
Proof.
  intros H. destruct (atomic_read_inv _ _ _ _ _ H) as (used & p & -> & _).
  rewrite length_app. simpl. lia.
Qed.

(** ** Tick deltas *)

Lemma calculate_ticks_run htim base w env cur w1 rest :
  mem w !! htim = Some base ->
  atomic_read w env = Ret (cur, w1, rest) ->
  calculate_ticks htim w env
  = Ret (ticks_between (arr_value (glob w)) base cur,
         store_handle htim (mkHandle (cnt cur) (ovf cur)) w1, rest).
Proof.
  intros Hm Hs. pose proof (atomic_read_frame _ _ _ _ _ Hs) as [Fm Fa _ _ _].
  unfold calculate_ticks. rewrite (bind_Ret _ _ _ _ _ _ _ Hs).
  unfold mbind, M_bind, load_handle, get_glob, write_handle, mret, M_ret.
  rewrite Fm, Hm, Fa. reflexivity.
Qed.

Lemma calculate_ticks_inv htim w env v w' rest :
  calculate_ticks htim w env = Ret (v, w', rest) ->
  exists base cur w1,
    mem w !! htim = Some base
    /\ atomic_read w env = Ret (cur, w1, rest)
    /\ v = ticks_between (arr_value (glob w)) base cur
    /\ w' = store_handle htim (mkHandle (cnt cur) (ovf cur)) w1.
Proof.
  intros H. unfold calculate_ticks in H.
  apply bind_Ret_inv in H as (cur & w1 & env1 & Hs & H).
  pose proof (atomic_read_frame _ _ _ _ _ Hs) as [Fm _ _ _ _].
  unfold mbind, M_bind, load_handle in H.
  destruct (mem w1 !! htim) as [base|] eqn:Hm; [|discriminate].
  simpl in H. injection H as <- <- <-.
  exists base, cur, w1. rewrite <- Fm. split; [exact Hm|].
  split; [exact Hs|]. split; [|reflexivity].
  f_equal. eapply fr_arr, atomic_read_frame, Hs.
Qed.

(** C1 (amended).  [calculate_ticks] returns the specification's elapsed-tick
    formula reduced modulo 2^32 (all its arithmetic is [uint32_t]): for a
    handle with baseline [base] and the sample [cur] taken by the call, the
    result is [wrap32] of
    [(cur.ovf - base.ovf) * reload + (cur.cnt - base.cnt)] when
    [cur.cnt >= base.cnt], and of
    [(cur.ovf - base.ovf - 1) * reload + (reload - base.cnt) + cur.cnt]
    otherwise.  It is the formula's own value whenever that value fits in
    32 bits; in particular one synthetic wrap with [base.cnt = reload - 5],
    [cur.cnt = 3] and one more overflow gives 8. *)
Theorem calculate_ticks_elapsed htim base w env cur w1 rest :
  mem w !! htim = Some base ->
  atomic_read w env = Ret (cur, w1, rest) ->
  let reload := arr_value (glob w) in
  exists w2,
    calculate_ticks htim w env
    = Ret (wrap32 (ElapsedTicks_spec reload base cur), w2, rest)
    /\ (uint32 (ElapsedTicks_spec reload base cur) ->
        calculate_ticks htim w env
        = Ret (ElapsedTicks_spec reload base cur, w2, rest))
    /\ (last_cnt base = reload - 5 -> cnt cur = 3 ->
        ovf cur = last_overflow base + 1 ->
        calculate_ticks htim w env = Ret (8, w2, rest)).
Proof.
  intros Hm Hs reload.
  exists (store_handle htim (mkHandle (cnt cur) (ovf cur)) w1).
  rewrite (calculate_ticks_run _ _ _ _ _ _ _ Hm Hs), ticks_between_spec.
  fold reload. split; [reflexivity|]. split.
  - intros Hr. now rewrite (wrap32_small _ Hr).
  - intros Hb Hc Ho. rewrite ElapsedTicks_spec_flat, Hb, Hc, Ho.
    replace ((last_overflow base + 1 - last_overflow base) * reload + 3
             - (reload - 5)) with 8 by ring.
    reflexivity.
Qed.

Lemma calculate_ticks_elapsed_witness :
  exists w2,
    calculate_ticks 1 world_2pow32 [still]
    = Ret (wrap32 (ElapsedTicks_spec 65536 (mkHandle 0 0) (mkSample 0 65536)),
           w2, []).
Proof.
  destruct (calculate_ticks_elapsed 1 (mkHandle 0 0) world_2pow32 [still]
              (mkSample 0 65536) world_2pow32 [] eq_refl eq_refl)
    as (w2 & H & _).
  exists w2. exact H.
Defined.

(** C1, as stated, fails: after 65536 overflows of a 65536-tick timer the
    formula's value is 2^32, and [calculate_ticks] returns 0. *)
Lemma calculate_ticks_wraps :
  mem world_2pow32 !! 1%N = Some (mkHandle 0 0)
  /\ 0 <= last_cnt (mkHandle 0 0) < arr_value (glob world_2pow32)
  /\ atomic_read world_2pow32 [still] = Ret (mkSample 0 65536, world_2pow32, [])
  /\ ElapsedTicks_spec (arr_value (glob world_2pow32)) (mkHandle 0 0)
       (mkSample 0 65536) = 4294967296
  /\ exists w2, calculate_ticks 1 world_2pow32 [still] = Ret (0, w2, []).
Proof.
  split; [reflexivity|]. split; [simpl; lia|]. split; [reflexivity|].
  split; [reflexivity|]. eexists. reflexivity.
Qed.

(** ** Configuration *)

Ltac run_config :=
  cbv beta iota delta
    [TimerLib_GlobalInit mbind M_bind mret M_ret modify_glob modify_optim
     get_glob udiv raise with_glob with_arr_value with_clock_freq
     with_overflow_counter with_optim with_us_optimized with_us_per_tick
     with_ns_optimized with_ns_per_tick with_overflowPreMS
     glob TIM1 mem arr_value clock_freq overflow_counter optim
     us_optimized us_per_tick ns_optimized ns_per_tick overflowPreMS
     configured_globals].

Lemma GlobalInit_run arr clk_freq w env :
  arr <> 0 ->
  TimerLib_GlobalInit arr clk_freq w env
  = Ret (tt, with_glob (configured_globals arr clk_freq (glob w)) w, env).
Proof.
  intros Harr. destruct w as [[a c o [uo up no np pm]] t m]. run_config.
  destruct (clk_freq mod 1000000000 =? 0); run_config;
    (destruct (Z.eqb_spec arr 0) as [|_]; [contradiction|reflexivity]).
Qed.

Lemma GlobalInit_zero_reload clk_freq w env :
  TimerLib_GlobalInit 0 clk_freq w env = Fault DivisionByZero.
Proof.
  destruct w as [[a c o [uo up no np pm]] t m]. run_config.
  destruct (clk_freq mod 1000000000 =? 0); run_config; reflexivity.
Qed.

Lemma GlobalInit_inv arr clk_freq w env u w' env' :
  TimerLib_GlobalInit arr clk_freq w env = Ret (u, w', env') ->
  arr <> 0
  /\ w' = with_glob (configured_globals arr clk_freq (glob w)) w
  /\ env' = env.
Proof.
  destruct (Z.eq_dec arr 0) as [->|Harr].
  - now rewrite GlobalInit_zero_reload.
  - rewrite (GlobalInit_run _ _ _ _ Harr). intros [= <- <- <-]. auto.
Qed.

(** C2 (amended).  [TimerLib_GlobalInit] validates nothing and has no
    error result: for every nonzero reload value and every clock
    frequency, zero included, it returns normally, having stored the two
    arguments, a zero overflow counter and the derived coefficients. *)
Theorem GlobalInit_returns arr clk_freq w env :
  arr <> 0 ->
  exists w',
    TimerLib_GlobalInit arr clk_freq w env = Ret (tt, w', env)
    /\ glob w' = configured_globals arr clk_freq (glob w)
    /\ TIM1 w' = TIM1 w
    /\ mem w' = mem w.
Proof.
  intros Harr. eexists. split; [apply GlobalInit_run, Harr|].
  repeat split.
Qed.

Lemma GlobalInit_returns_witness :
  exists w',
    TimerLib_GlobalInit 8000 0 (boot 8000) [] = Ret (tt, w', [])
    /\ glob w' = mkGlobals 8000 0 0 (mkOptim true 0 true 0 0).
Proof.
  destruct (GlobalInit_returns 8000 0 (boot 8000) []) as (w' & H & Hg & _).
  - lia.
  - exists w'. split; [exact H|]. rewrite Hg. reflexivity.
Defined.

(** C2, as stated, fails: a zero frequency is accepted (and leaves both
    exact paths enabled with zero divisors), and a zero reload value runs
    into the division [clk_freq / arr_value]. *)
Lemma GlobalInit_accepts_zero :
  TimerLib_GlobalInit 8000 0 (boot 8000) []
  = Ret (tt,
         with_glob (mkGlobals 8000 0 0 (mkOptim true 0 true 0 0)) (boot 8000),
         [])
  /\ TimerLib_GlobalInit 0 8000000 (boot 8000) [] = Fault DivisionByZero.
Proof. split; reflexivity. Qed.

Lemma configured_divisors arr clk_freq g :
  0 < clk_freq -> divisors_ok (configured_globals arr clk_freq g).
Proof.
  intros Hclk. unfold divisors_ok, configured_globals. simpl.
  split; [exact Hclk|]. split.
  - intros H. apply Z.eqb_eq in H.
    pose proof (Z.div_mod clk_freq 1000000). lia.
  - intros H. rewrite H. apply Z.eqb_eq in H.
    pose proof (Z.div_mod clk_freq 1000000000). lia.
Qed.

(** ** Conversions *)

Lemma udiv_Ret a b w env : b <> 0 -> udiv a b w env = Ret (a / b, w, env).
Proof.
  intros Hb. unfold udiv. now destruct (Z.eqb_spec b 0).
Qed.

Lemma udiv_world a b w env q w' env' :
  udiv a b w env = Ret (q, w', env') -> w' = w /\ env' = env.
Proof.
  unfold udiv. destruct (b =? 0); [discriminate|].
  now intros [= _ <- <-].
Qed.

Lemma calculate_ticks_uint32 htim w env v w' rest :
  calculate_ticks htim w env = Ret (v, w', rest) -> uint32 v.
Proof.
  intros H. apply calculate_ticks_inv in H as (base & cur & w1 & _ & _ & -> & _).
  rewrite ticks_between_spec. apply wrap32_range.
Qed.

Lemma calculate_ticks_glob htim w env v w' rest :
  calculate_ticks htim w env = Ret (v, w', rest) ->
  clock_freq (glob w') = clock_freq (glob w)
  /\ optim (glob w') = optim (glob w)
  /\ arr_value (glob w') = arr_value (glob w).
Proof.
  intros H. apply calculate_ticks_inv in H as (base & cur & w1 & _ & Hs & _ & ->).
  destruct (atomic_read_frame _ _ _ _ _ Hs). simpl. auto.
Qed.

Lemma calculate_ticks_fault htim w env e :
  calculate_ticks htim w env = Fault e -> e = InvalidHandle.
Proof.
  unfold calculate_ticks, mbind, M_bind.
  destruct (atomic_read w env) as [[[cur w1] env1]|e'|] eqn:Hs.
  - unfold load_handle, get_glob, write_handle, mret, M_ret.
    destruct (mem w1 !! htim); simpl; congruence.
  - now apply atomic_read_no_fault in Hs.
  - discriminate.
Qed.

Lemma calculate_Timestamp_run w env cur w1 rest :
  atomic_read w env = Ret (cur, w1, rest) ->
  calculate_Timestamp w env
  = Ret (wrap64 (wrap64 (ovf cur * arr_value (glob w)) + cnt cur), w1, rest).
Proof.
  intros Hs. pose proof (atomic_read_frame _ _ _ _ _ Hs) as [_ Fa _ _ _].
  unfold calculate_Timestamp. rewrite (bind_Ret _ _ _ _ _ _ _ Hs).
  unfold mbind, M_bind, get_glob, mret, M_ret. now rewrite Fa.
Qed.

Lemma calculate_Timestamp_inv w env v w' rest :
  calculate_Timestamp w env = Ret (v, w', rest) ->
  exists cur,
    atomic_read w env = Ret (cur, w', rest)
    /\ v = wrap64 (wrap64 (ovf cur * arr_value (glob w)) + cnt cur).
Proof.
  intros H. unfold calculate_Timestamp in H.
  apply bind_Ret_inv in H as (cur & w1 & env1 & Hs & H).
  pose proof (atomic_read_frame _ _ _ _ _ Hs) as [_ Fa _ _ _].
  unfold mbind, M_bind, get_glob, mret, M_ret in H.
  injection H as <- <- <-. exists cur. now rewrite Fa.
Qed.

Lemma calculate_Timestamp_no_fault w env e : calculate_Timestamp w env <> Fault e.
Proof.
  unfold calculate_Timestamp, mbind, M_bind.
  destruct (atomic_read w env) as [[[cur w1] env1]|e'|] eqn:Hs.
  - discriminate.
  - now apply atomic_read_no_fault in Hs.
  - discriminate.
Qed.

(** Unfolds the tail of a conversion routine once its tick count is known. *)
Ltac run_conversion H :=
  rewrite (bind_Ret _ _ _ _ _ _ _ H);
  unfold mbind, M_bind, get_glob, mret, M_ret.

Lemma GetInterval_us_run htim w env ticks w1 rest :
  divisors_ok (glob w) ->
  calculate_ticks htim w env = Ret (ticks, w1, rest) ->
  TimerLib_GetInterval_us htim w env
  = Ret (if us_optimized (optim (glob w))
         then ticks / us_per_tick (optim (glob w))
         else wrap32 (ticks * 1000000 / clock_freq (glob w)),
         w1, rest).
Proof.
  intros (Hclk & Hus & _) H.
  destruct (calculate_ticks_glob _ _ _ _ _ _ H) as (Ec & Eo & _).
  pose proof (calculate_ticks_uint32 _ _ _ _ _ _ H) as Ht.
  unfold TimerLib_GetInterval_us. run_conversion H. rewrite Ec, Eo.
  destruct (us_optimized (optim (glob w))).
  - rewrite udiv_Ret by (specialize (Hus eq_refl); lia). reflexivity.
  - rewrite udiv_Ret by lia. rewrite wrap64_small; [reflexivity|].
    unfold uint32 in Ht. unfold uint64. lia.
Qed.

Lemma GetInterval_ns_run htim w env ticks w1 rest :
  divisors_ok (glob w) ->
  calculate_ticks htim w env = Ret (ticks, w1, rest) ->
  TimerLib_GetInterval_ns htim w env
  = Ret (if ns_optimized (optim (glob w))
         then ticks / ns_per_tick (optim (glob w))
         else wrap32 (ticks * 1000000000 / clock_freq (glob w)),
         w1, rest).
Proof.
  intros (Hclk & _ & Hns) H.
  destruct (calculate_ticks_glob _ _ _ _ _ _ H) as (Ec & Eo & _).
  pose proof (calculate_ticks_uint32 _ _ _ _ _ _ H) as Ht.
  unfold TimerLib_GetInterval_ns. run_conversion H. rewrite Ec, Eo.
  destruct (ns_optimized (optim (glob w))).
  - rewrite udiv_Ret by (specialize (Hns eq_refl); lia). reflexivity.
  - rewrite udiv_Ret by lia. rewrite wrap64_small; [reflexivity|].
    unfold uint32 in Ht. unfold uint64. lia.
Qed.

Lemma GetTimestamp_us_run w env ticks w1 rest :
  divisors_ok (glob w) ->
  calculate_Timestamp w env = Ret (ticks, w1, rest) ->
  TimerLib_GetTimestamp_us w env
  = Ret (if us_optimized (optim (glob w))
         then ticks / us_per_tick (optim (glob w))
         else wrap64 (ticks * 1000000) / clock_freq (glob w),
         w1, rest).
Proof.
  intros (Hclk & Hus & _) H.
  destruct (calculate_Timestamp_inv _ _ _ _ _ H) as (cur & Hs & _).
  destruct (atomic_read_frame _ _ _ _ _ Hs) as [_ _ Ec Eo _].
  unfold TimerLib_GetTimestamp_us. run_conversion H. rewrite Ec, Eo.
  destruct (us_optimized (optim (glob w))).
  - rewrite udiv_Ret by (specialize (Hus eq_refl); lia). reflexivity.
  - rewrite udiv_Ret by lia. reflexivity.
Qed.

Lemma quotient_uint32 a b : uint32 a -> 1 <= b -> uint32 (a / b).
Proof.
  unfold uint32. intros Ha Hb. split.
  - apply Z.div_pos; lia.
  - apply Z.le_lt_trans with a; [|lia]. apply Z.div_le_upper_bound; nia.
Qed.

(** C3 (amended).  For a configuration with a positive frequency and the
    exact-path divisors of [TimerLib_GlobalInit]: the 32-bit interval
    getters return the specified duration reduced modulo 2^32, which on
    the exact path is [ticks / us_per_tick] (resp. [ticks / ns_per_tick])
    itself and on the scaled path is [ticks * 1000000 / clock_freq] (resp.
    [ticks * 1000000000 / clock_freq]) modulo 2^32, the 64-bit product
    never overflowing for a 32-bit delta; [TimerLib_GetTimestamp_us]
    returns [ticks / us_per_tick] on the exact path and on the scaled path
    the quotient of the product reduced modulo 2^64, which is
    [ticks * 1000000 / clock_freq] whenever the product is below 2^64. *)
Theorem conversion_values htim w env :
  divisors_ok (glob w) ->
  let g := glob w in
  (forall ticks w1 rest,
      calculate_ticks htim w env = Ret (ticks, w1, rest) ->
      TimerLib_GetInterval_us htim w env
      = Ret (wrap32 (us_of_ticks_spec g ticks), w1, rest)
      /\ TimerLib_GetInterval_ns htim w env
         = Ret (wrap32 (ns_of_ticks_spec g ticks), w1, rest)
      /\ (us_optimized (optim g) = true ->
          wrap32 (us_of_ticks_spec g ticks) = ticks / us_per_tick (optim g))
      /\ (ns_optimized (optim g) = true ->
          wrap32 (ns_of_ticks_spec g ticks) = ticks / ns_per_tick (optim g)))
  /\ (forall ticks w1 rest,
         calculate_Timestamp w env = Ret (ticks, w1, rest) ->
         TimerLib_GetTimestamp_us w env
         = Ret (if us_optimized (optim g)
                then ticks / us_per_tick (optim g)
                else wrap64 (ticks * 1000000) / clock_freq g,
                w1, rest)
         /\ (ticks * 1000000 < 2 ^ 64 ->
             TimerLib_GetTimestamp_us w env
             = Ret (us_of_ticks_spec g ticks, w1, rest))).
Proof.
  intros Hd g. pose proof Hd as (Hclk & Hus & Hns). fold g in Hclk, Hus, Hns.
  split.
  - intros ticks w1 rest H.
    pose proof (calculate_ticks_uint32 _ _ _ _ _ _ H) as Ht.
    assert (Eus : us_optimized (optim g) = true ->
                  wrap32 (us_of_ticks_spec g ticks)
                  = ticks / us_per_tick (optim g)).
    { intros E. unfold us_of_ticks_spec. rewrite E.
      apply wrap32_small, quotient_uint32; auto. }
    assert (Ens : ns_optimized (optim g) = true ->
                  wrap32 (ns_of_ticks_spec g ticks)
                  = ticks / ns_per_tick (optim g)).
    { intros E. unfold ns_of_ticks_spec. rewrite E.
      apply wrap32_small, quotient_uint32; auto. }
    repeat split; auto.
    + rewrite (GetInterval_us_run _ _ _ _ _ _ Hd H). fold g.
      destruct (us_optimized (optim g)) eqn:E.
      * now rewrite Eus.
      * unfold us_of_ticks_spec. now rewrite E.
    + rewrite (GetInterval_ns_run _ _ _ _ _ _ Hd H). fold g.
      destruct (ns_optimized (optim g)) eqn:E.
      * now rewrite Ens.
      * unfold ns_of_ticks_spec. now rewrite E.
  - intros ticks w1 rest H.
    rewrite (GetTimestamp_us_run _ _ _ _ _ Hd H). fold g.
    split; [reflexivity|]. intros Hlt.
    destruct (calculate_Timestamp_inv _ _ _ _ _ H) as (cur & _ & Hv).
    assert (Hr : uint64 ticks) by (rewrite Hv; apply wrap64_range).
    unfold us_of_ticks_spec. destruct (us_optimized (optim g)); [reflexivity|].
    rewrite wrap64_small; [reflexivity|]. unfold uint64 in *. lia.
Qed.

Lemma conversion_values_witness :
  TimerLib_GetInterval_us 1 world_5s [still]
  = Ret (wrap32 (us_of_ticks_spec (glob world_5s) 360000000),
         store_handle 1 (mkHandle 10752 5493) world_5s, []).
Proof.
  assert (Hd : divisors_ok (glob world_5s)).
  { unfold divisors_ok. simpl.
    split; [lia | split; [intros _; lia | discriminate]]. }
  destruct (conversion_values 1 world_5s [still] Hd) as [H _].
  destruct (H 360000000 (store_handle 1 (mkHandle 10752 5493) world_5s) []
              eq_refl) as [Hus _].
  exact Hus.
Defined.

(** C3, as stated, fails.  Five seconds at 72 MHz are 360000000 ticks and
    5000000000 ns; [TimerLib_GetInterval_ns] returns that number modulo
    2^32.  After 151 days at 1.5 MHz the product [ticks * 1000000] of
    [TimerLib_GetTimestamp_us] exceeds 64 bits and the result is not
    [ticks * 1000000 / clock_freq]. *)
Lemma conversion_truncates :
  (calculate_ticks 1 world_5s [still]
   = Ret (360000000, store_handle 1 (mkHandle 10752 5493) world_5s, [])
   /\ ns_of_ticks_spec (glob world_5s) 360000000 = 5000000000
   /\ TimerLib_GetInterval_ns 1 world_5s [still]
      = Ret (705032704, store_handle 1 (mkHandle 10752 5493) world_5s, []))
  /\ (calculate_Timestamp world_151d [still]
      = Ret (19660800000000, world_151d, [])
      /\ us_of_ticks_spec (glob world_151d) 19660800000000 = 13107200000000
      /\ TimerLib_GetTimestamp_us world_151d [still]
         = Ret (809370617526, world_151d, [])).
Proof. repeat split; vm_compute; reflexivity. Qed.

(** Every routine built on [calculate_ticks] or [calculate_Timestamp] and
    followed by a conversion [conv]. *)
Lemma getter_no_division_by_zero {A} (src : M Z) (conv : Globals -> Z -> M A)
    w env :
  no_division_by_zero (src w env) ->
  (forall t w1 r, src w env = Ret (t, w1, r) ->
                  no_division_by_zero (conv (glob w1) t w1 r)) ->
  no_division_by_zero ((src ≫= λ t, get_glob ≫= λ g, conv g t) w env).
Proof.
  unfold no_division_by_zero. intros Hsrc Hconv.
  unfold mbind at 1. unfold M_bind.
  destruct (src w env) as [[[t w1] r]|e|]; [| |discriminate].
  - apply (Hconv t w1 r eq_refl).
  - intros [= ->]. now apply Hsrc.
Qed.

Lemma udiv_no_division_by_zero {A} a b (k : Z -> M A) w env :
  b <> 0 ->
  (forall q, no_division_by_zero (k q w env)) ->
  no_division_by_zero ((udiv a b ≫= k) w env).
Proof.
  intros Hb Hk. rewrite (bind_Ret _ _ _ _ _ _ _ (udiv_Ret a b w env Hb)).
  apply Hk.
Qed.

Lemma udiv_alone_no_division_by_zero a b w env :
  b <> 0 -> no_division_by_zero (udiv a b w env).
Proof. intros Hb. rewrite udiv_Ret by exact Hb. discriminate. Qed.

Ltac no_div0 Hclk Hus Hns :=
  match goal with
  | |- no_division_by_zero ((if ?b then _ else _) _ _) =>
      destruct b eqn:?
  end;
  first [ apply udiv_alone_no_division_by_zero
        | apply udiv_no_division_by_zero; [| intros q; discriminate] ];
  first [ lia | specialize (Hus eq_refl); lia | specialize (Hns eq_refl); lia ].

Lemma interval_getters_no_division_by_zero htim w env :
  divisors_ok (glob w) ->
  no_division_by_zero (TimerLib_GetInterval_us htim w env)
  /\ no_division_by_zero (TimerLib_GetInterval_ns htim w env)
  /\ no_division_by_zero (TimerLib_GetInterval_sf htim w env)
  /\ no_division_by_zero (TimerLib_GetInterval_df htim w env).
Proof.
  intros (Hclk & Hus & Hns).
  assert (Hsrc : no_division_by_zero (calculate_ticks htim w env)).
  { intros H. now apply calculate_ticks_fault in H. }
  repeat split; apply getter_no_division_by_zero; try exact Hsrc;
    intros t w1 r H;
    destruct (calculate_ticks_glob _ _ _ _ _ _ H) as (Ec & Eo & _);
    rewrite Ec, Eo; no_div0 Hclk Hus Hns.
Qed.

Lemma timestamp_getters_no_division_by_zero w env :
  divisors_ok (glob w) ->
  no_division_by_zero (TimerLib_GetTimestamp_us w env)
  /\ no_division_by_zero (TimerLib_GetTimestamp_sf w env)
  /\ no_division_by_zero (TimerLib_GetTimestamp_df w env).
Proof.
  intros (Hclk & Hus & Hns).
  assert (Hsrc : no_division_by_zero (calculate_Timestamp w env))
    by apply calculate_Timestamp_no_fault.
  repeat split; apply getter_no_division_by_zero; try exact Hsrc;
    intros t w1 r H;
    destruct (calculate_Timestamp_inv _ _ _ _ _ H) as (cur & Hs & _);
    destruct (atomic_read_frame _ _ _ _ _ Hs) as [_ _ Ec Eo _];
    rewrite Ec, Eo; no_div0 Hclk Hus Hns.
Qed.

(** C10.  After [TimerLib_GlobalInit] with a positive frequency the
    exact-path divisors are nonzero: [us_optimized] implies
    [us_per_tick >= 1] and [ns_optimized] implies [ns_per_tick >= 1]; so
    in any later world with that configuration no interval or timestamp
    getter divides by zero. *)
Theorem GlobalInit_divisors arr clk_freq w env w' env' :
  0 < clk_freq ->
  TimerLib_GlobalInit arr clk_freq w env = Ret (tt, w', env') ->
  (us_optimized (optim (glob w')) = true -> 1 <= us_per_tick (optim (glob w')))
  /\ (ns_optimized (optim (glob w')) = true ->
      1 <= ns_per_tick (optim (glob w')))
  /\ forall w2 env2 htim,
       clock_freq (glob w2) = clock_freq (glob w') ->
       optim (glob w2) = optim (glob w') ->
       no_division_by_zero (TimerLib_GetInterval_us htim w2 env2)
       /\ no_division_by_zero (TimerLib_GetInterval_ns htim w2 env2)
       /\ no_division_by_zero (TimerLib_GetInterval_sf htim w2 env2)
       /\ no_division_by_zero (TimerLib_GetInterval_df htim w2 env2)
       /\ no_division_by_zero (TimerLib_GetTimestamp_us w2 env2)
       /\ no_division_by_zero (TimerLib_GetTimestamp_sf w2 env2)
       /\ no_division_by_zero (TimerLib_GetTimestamp_df w2 env2).
Proof.
  intros Hclk H. apply GlobalInit_inv in H as (_ & -> & _).
  pose proof (configured_divisors arr clk_freq (glob w) Hclk) as Hd.
  split; [apply Hd|]. split; [apply Hd|].
  intros w2 env2 htim Ec Eo.
  assert (Hd2 : divisors_ok (glob w2)).
  { unfold divisors_ok. rewrite Ec, Eo. exact Hd. }
  destruct (interval_getters_no_division_by_zero htim w2 env2 Hd2)
    as (H1 & H2 & H3 & H4).
  destruct (timestamp_getters_no_division_by_zero w2 env2 Hd2)
    as (H5 & H6 & H7).
  repeat split; assumption.
Qed.

Lemma GlobalInit_divisors_witness :
  1 <= us_per_tick (optim (configured_globals 8000 8000000 globals0)).
Proof.
  refine (proj1 (GlobalInit_divisors 8000 8000000 (boot 8000) []
                   (with_glob (configured_globals 8000 8000000 globals0)
                      (boot 8000)) [] _ _) _).
  - lia.
  - reflexivity.
  - reflexivity.
Defined.

(** ** Well-formed worlds *)

Lemma hw_tick_wf w : wf_world w -> wf_world (hw_tick w).
Proof.
  unfold wf_world, hw_tick, uint32. intros (Ha & Ho & Hc & Hr).
  destruct (Z.ltb_spec (CNT (TIM1 w) + 1) (ARR (TIM1 w))); simpl.
  - repeat split; lia.
  - pose proof (wrap32_range (overflow_counter (glob w) + 1)) as Hw.
    unfold uint32 in Hw. repeat split; lia.
Qed.

Lemma advance_wf n w : wf_world w -> wf_world (advance n w).
Proof.
  intros Hw. unfold advance. apply N.iter_invariant; [|exact Hw].
  intros w'. apply hw_tick_wf.
Qed.

Lemma after_probe_wf p w : wf_world w -> wf_world (after_probe p w).
Proof. intros Hw. unfold after_probe, at_count. now repeat apply advance_wf. Qed.

Lemma elapse_wf used w : wf_world w -> wf_world (elapse used w).
Proof.
  revert w. induction used as [|p used IH]; intros w Hw; simpl; [exact Hw|].
  apply IH, after_probe_wf, Hw.
Qed.

Lemma atomic_read_wf env w s w' rest :
  wf_world w ->
  atomic_read w env = Ret (s, w', rest) ->
  uint32 (cnt s) /\ uint32 (ovf s) /\ wf_world w'.
Proof.
  intros Hw H.
  destruct (atomic_read_inv _ _ _ _ _ H) as (used & p & _ & Ho & Hc & -> & _).
  pose proof (elapse_wf used w Hw) as Hu. rewrite Ho, Hc.
  split; [|split].
  - unfold at_count, get_current_cnt.
    apply (advance_wf (d_ovf p)), (advance_wf (d_cnt p)) in Hu.
    apply Hu.
  - apply (advance_wf (d_ovf p)) in Hu. apply Hu.
  - apply after_probe_wf, Hu.
Qed.

Lemma elapse_quiet used w : quiet used -> elapse used w = w.
Proof.
  revert w. induction used as [|p used IH]; intros w Hq; simpl; [reflexivity|].
  rewrite (Hq p (or_introl eq_refl)). unfold after_probe, at_count. simpl.
  apply IH. intros q Hin. apply Hq. now right.
Qed.

(** ** Absolute timestamps *)

Ltac conversion_tail H :=
  unfold mbind, M_bind, get_glob, udiv, raise, mret, M_ret in H;
  repeat match type of H with
         | context [if ?b then _ else _] => destruct b
         end;
  try discriminate; injection H as <- <- <-.

(** C6.  The timestamp queries work on the cumulative tick count
    [overflow * reload + count] of the sample they take: the microsecond
    getter and both seconds getters convert exactly that count (by
    [us_per_tick] on the exact path, by [clock_freq] on the scaled path;
    a floating-point result is the integer quotient and its decimal
    scale).  They write nothing: the world they leave is the world the
    passage of time alone produces, with every handle and the whole
    configuration as before (and the very same world when the timer did
    not tick meanwhile). *)
Theorem timestamp_cumulative w env cur w1 rest :
  wf_world w ->
  atomic_read w env = Ret (cur, w1, rest) ->
  let ticks := ovf cur * arr_value (glob w) + cnt cur in
  calculate_Timestamp w env = Ret (ticks, w1, rest)
  /\ (us_optimized (optim (glob w)) = true ->
      us_per_tick (optim (glob w)) <> 0 ->
      TimerLib_GetTimestamp_us w env
      = Ret (ticks / us_per_tick (optim (glob w)), w1, rest)
      /\ TimerLib_GetTimestamp_sf w env
         = Ret (FInt (ticks / us_per_tick (optim (glob w))), w1, rest)
      /\ TimerLib_GetTimestamp_df w env
         = Ret (FScaled (ticks / us_per_tick (optim (glob w))) 9, w1, rest))
  /\ (us_optimized (optim (glob w)) = false ->
      clock_freq (glob w) <> 0 ->
      TimerLib_GetTimestamp_us w env
      = Ret (wrap64 (ticks * 1000000) / clock_freq (glob w), w1, rest)
      /\ TimerLib_GetTimestamp_sf w env
         = Ret (FScaled (ticks / clock_freq (glob w)) 6, w1, rest)
      /\ TimerLib_GetTimestamp_df w env
         = Ret (FScaled (ticks / clock_freq (glob w)) 9, w1, rest))
  /\ TimerLib_GetTimestamp_us w env
     = (if us_optimized (optim (glob w))
        then udiv ticks (us_per_tick (optim (glob w)))
        else udiv (wrap64 (ticks * 1000000)) (clock_freq (glob w))) w1 rest
  /\ (forall v w' rest',
         TimerLib_GetTimestamp_us w env = Ret (v, w', rest') ->
         w' = w1 /\ rest' = rest)
  /\ (forall v w' rest',
         TimerLib_GetTimestamp_sf w env = Ret (v, w', rest') ->
         w' = w1 /\ rest' = rest)
  /\ (forall v w' rest',
         TimerLib_GetTimestamp_df w env = Ret (v, w', rest') ->
         w' = w1 /\ rest' = rest)
  /\ (exists used, env = used ++ rest /\ w1 = elapse used w)
  /\ mem w1 = mem w
  /\ arr_value (glob w1) = arr_value (glob w)
  /\ clock_freq (glob w1) = clock_freq (glob w)
  /\ optim (glob w1) = optim (glob w)
  /\ (quiet env -> w1 = w).
Proof.
  intros Hw Hs ticks.
  destruct (atomic_read_wf _ _ _ _ _ Hw Hs) as (Hc & Ho & _).
  destruct (atomic_read_frame _ _ _ _ _ Hs) as [Fm Fa Fc Fo _].
  destruct (atomic_read_elapse _ _ _ _ _ Hs) as (used & Henv & Hw1).
  assert (Ht : calculate_Timestamp w env = Ret (ticks, w1, rest)).
  { rewrite (calculate_Timestamp_run _ _ _ _ _ Hs). subst ticks.
    destruct Hw as (Ha & _). unfold uint32 in *.
    rewrite (wrap64_small (ovf cur * arr_value (glob w))) by (unfold uint64; nia).
    rewrite wrap64_small by (unfold uint64; nia). reflexivity. }
  split; [exact Ht|].
  split; [|split].
  { intros E Hd.
    unfold TimerLib_GetTimestamp_us, TimerLib_GetTimestamp_sf,
      TimerLib_GetTimestamp_df.
    rewrite !(bind_Ret _ _ _ _ _ _ _ Ht).
    unfold mbind, M_bind, get_glob, udiv, raise, mret, M_ret.
    rewrite Fo, E.
    destruct (Z.eqb_spec (us_per_tick (optim (glob w))) 0); [contradiction|].
    repeat split. }
  { intros E Hd.
    unfold TimerLib_GetTimestamp_us, TimerLib_GetTimestamp_sf,
      TimerLib_GetTimestamp_df.
    rewrite !(bind_Ret _ _ _ _ _ _ _ Ht).
    unfold mbind, M_bind, get_glob, udiv, raise, mret, M_ret.
    rewrite Fo, Fc, E.
    destruct (Z.eqb_spec (clock_freq (glob w)) 0); [contradiction|].
    repeat split. }
  split; [|split; [|split; [|split; [|split; [|repeat split; auto]]]]].
  - unfold TimerLib_GetTimestamp_us. rewrite (bind_Ret _ _ _ _ _ _ _ Ht).
    unfold mbind, M_bind, get_glob. now rewrite Fo, Fc.
  - intros v w' rest' H. unfold TimerLib_GetTimestamp_us in H.
    rewrite (bind_Ret _ _ _ _ _ _ _ Ht) in H. conversion_tail H; auto.
  - intros v w' rest' H. unfold TimerLib_GetTimestamp_sf in H.
    rewrite (bind_Ret _ _ _ _ _ _ _ Ht) in H. conversion_tail H; auto.
  - intros v w' rest' H. unfold TimerLib_GetTimestamp_df in H.
    rewrite (bind_Ret _ _ _ _ _ _ _ Ht) in H. conversion_tail H; auto.
  - now exists used.
  - intros Hq. rewrite Hw1. apply elapse_quiet.
    intros p Hin. apply Hq. rewrite Henv. apply in_or_app. now left.
Qed.

Lemma timestamp_cumulative_witness :
  calculate_Timestamp world_151d [still]
  = Ret (300000000 * 65536 + 0, world_151d, []).
Proof.
  refine (proj1 (timestamp_cumulative world_151d [still]
                   (mkSample 0 300000000) world_151d [] _ _)).
  - unfold wf_world, uint32. simpl. lia.
  - reflexivity.
Defined.

(** ** Interval queries and the handle memory *)

Lemma hw_tick_store htim h w :
  store_handle htim h (hw_tick w) = hw_tick (store_handle htim h w).
Proof. unfold hw_tick. simpl. now destruct (_ <? _). Qed.

Lemma advance_store htim h n w :
  store_handle htim h (advance n w) = advance n (store_handle htim h w).
Proof. unfold advance. apply N.iter_swap_gen. intros a. apply hw_tick_store. Qed.

Lemma atomic_read_store htim h env w :
  atomic_read (store_handle htim h w) env
  = on_world (store_handle htim h) (atomic_read w env).
Proof.
  unfold atomic_read. revert w. induction env as [|p env IH]; intros w; simpl.
  - reflexivity.
  - rewrite <- !advance_store. simpl.
    destruct (negb _); [apply IH | reflexivity].
Qed.

Lemma store_handle_commute h1 x1 h2 x2 w :
  h1 <> h2 ->
  store_handle h1 x1 (store_handle h2 x2 w)
  = store_handle h2 x2 (store_handle h1 x1 w).
Proof.
  intros Hne. unfold store_handle. simpl. f_equal.
  now apply insert_insert_ne.
Qed.

Lemma calculate_ticks_store htim h h2 w env :
  h2 <> htim ->
  calculate_ticks h2 (store_handle htim h w) env
  = on_world (store_handle htim h) (calculate_ticks h2 w env).
Proof.
  intros Hne. unfold calculate_ticks, mbind at 1 5. unfold M_bind.
  rewrite atomic_read_store.
  destruct (atomic_read w env) as [[[cur w1] env1]| |]; simpl; try reflexivity.
  unfold mbind, M_bind, load_handle, get_glob, write_handle, mret, M_ret.
  simpl. rewrite lookup_insert_ne by congruence.
  destruct (mem w1 !! h2); simpl; [|reflexivity].
  now rewrite store_handle_commute.
Qed.

Ltac interval_tail H Hrun :=
  rewrite (bind_Ret _ _ _ _ _ _ _ Hrun) in H; conversion_tail H; auto.

(** C7.  An interval query on the handle at [htim] stores the sample it
    took as that handle's new baseline and writes nothing else: every
    other handle, the configuration and the timer are as the passage of
    time alone leaves them (the overflow counter moves only through the
    interrupt), and a later query on another handle returns what it would
    have returned without this one. *)
Theorem interval_query_frame htim base w env cur w1 rest :
  mem w !! htim = Some base ->
  atomic_read w env = Ret (cur, w1, rest) ->
  let fresh := mkHandle (cnt cur) (ovf cur) in
  let w' := store_handle htim fresh w1 in
  (exists v, calculate_ticks htim w env = Ret (v, w', rest))
  /\ (forall v wx rx, TimerLib_GetInterval_us htim w env = Ret (v, wx, rx) ->
                     wx = w' /\ rx = rest)
  /\ (forall v wx rx, TimerLib_GetInterval_ns htim w env = Ret (v, wx, rx) ->
                     wx = w' /\ rx = rest)
  /\ (forall v wx rx, TimerLib_GetInterval_sf htim w env = Ret (v, wx, rx) ->
                     wx = w' /\ rx = rest)
  /\ (forall v wx rx, TimerLib_GetInterval_df htim w env = Ret (v, wx, rx) ->
                     wx = w' /\ rx = rest)
  /\ mem w' !! htim = Some fresh
  /\ (forall h, h <> htim -> mem w' !! h = mem w !! h)
  /\ glob w' = glob w1
  /\ TIM1 w' = TIM1 w1
  /\ (exists used, env = used ++ rest /\ w1 = elapse used w)
  /\ arr_value (glob w') = arr_value (glob w)
  /\ clock_freq (glob w') = clock_freq (glob w)
  /\ optim (glob w') = optim (glob w)
  /\ (quiet env -> glob w' = glob w /\ TIM1 w' = TIM1 w)
  /\ (forall h2 env2, h2 <> htim ->
        calculate_ticks h2 w' env2
        = on_world (store_handle htim fresh) (calculate_ticks h2 w1 env2)).
Proof.
  intros Hm Hs fresh w'.
  pose proof (calculate_ticks_run _ _ _ _ _ _ _ Hm Hs) as Hrun.
  fold fresh in Hrun. fold w' in Hrun.
  destruct (atomic_read_frame _ _ _ _ _ Hs) as [Fm Fa Fc Fo _].
  destruct (atomic_read_elapse _ _ _ _ _ Hs) as (used & Henv & Hw1).
  split; [eexists; exact Hrun|].
  split; [intros v wx rx H; unfold TimerLib_GetInterval_us in H;
          interval_tail H Hrun|].
  split; [intros v wx rx H; unfold TimerLib_GetInterval_ns in H;
          interval_tail H Hrun|].
  split; [intros v wx rx H; unfold TimerLib_GetInterval_sf in H;
          interval_tail H Hrun|].
  split; [intros v wx rx H; unfold TimerLib_GetInterval_df in H;
          interval_tail H Hrun|].
  split; [apply lookup_insert_eq|].
  split; [intros h Hne; simpl; rewrite lookup_insert_ne by congruence;
          now rewrite Fm|].
  split; [reflexivity|]. split; [reflexivity|].
  split; [now exists used|].
  split; [exact Fa|]. split; [exact Fc|]. split; [exact Fo|].
  split.
  - intros Hq. assert (Hu : quiet used).
    { intros p Hin. apply Hq. rewrite Henv. apply in_or_app. now left. }
    simpl. rewrite Hw1, (elapse_quiet _ _ Hu). auto.
  - intros h2 env2 Hne. now apply calculate_ticks_store.
Qed.

Lemma interval_query_frame_witness :
  exists v,
    calculate_ticks 1 world_5s [still]
    = Ret (v, store_handle 1 (mkHandle 10752 5493) world_5s, []).
Proof.
  exact (proj1 (interval_query_frame 1 (mkHandle 0 0) world_5s [still]
                  (mkSample 10752 5493) world_5s [] eq_refl eq_refl)).
Defined.

(** ** Wait loops *)

Section WaitLoop.
Variable elapsed : Sample -> Z.
Variable T : Z.

Let reached (cur : Sample) : bool := elapsed cur >=? T.

Lemma wait_loop_step fuel w env :
  wait_loop (S fuel) reached w env
  = match atomic_read w env with
    | Ret (cur, w1, env1) =>
        if elapsed cur >=? T then Ret (tt, w1, env1)
        else wait_loop fuel reached w1 env1
    | Fault e => Fault e
    | Spin => Spin
    end.
Proof.
  simpl. unfold mbind, M_bind.
  destruct (atomic_read w env) as [[[cur w1] env1]| |]; try reflexivity.
  unfold reached. now destruct (elapsed cur >=? T).
Qed.

Lemma wait_loop_spins fuel w env u w' rest :
  wait_loop fuel reached w env = Ret (u, w', rest) ->
  spins elapsed T w env w' rest.
Proof.
  revert w env. induction fuel as [|fuel IH]; intros w env; [discriminate|].
  rewrite wait_loop_step.
  destruct (atomic_read w env) as [[[cur w1] env1]| |] eqn:Hs;
    try discriminate.
  destruct (Z.geb_spec (elapsed cur) T) as [Hge|Hlt].
  - intros [= _ <- <-]. eapply spins_hit; [exact Hs | lia].
  - intros H. eapply spins_miss; [exact Hs | lia | apply IH, H].
Qed.

Lemma spins_wait_loop w env w' rest :
  spins elapsed T w env w' rest ->
  forall fuel, (length env <= fuel)%nat ->
               wait_loop fuel reached w env = Ret (tt, w', rest).
Proof.
  induction 1 as [w env cur w' rest Hs Hge
                 |w env cur w1 env1 w' rest Hs Hlt _ IH];
    intros fuel Hfuel;
    pose proof (atomic_read_shorter _ _ _ _ _ Hs) as Hlen;
    (destruct fuel as [|fuel]; [lia|]);
    rewrite wait_loop_step, Hs.
  - destruct (Z.geb_spec (elapsed cur) T); [reflexivity | lia].
  - destruct (Z.geb_spec (elapsed cur) T); [lia | apply IH; lia].
Qed.

(** The loop returns exactly when such a run exists. *)
Lemma spin_until_spins w env w' rest :
  spin_until reached w env = Ret (tt, w', rest)
  <-> spins elapsed T w env w' rest.
Proof.
  unfold spin_until. split.
  - apply wait_loop_spins.
  - intros H. now apply spins_wait_loop.
Qed.

(** More fuel than the trace is long changes nothing. *)
Lemma wait_loop_fuel fuel w env :
  (length env <= fuel)%nat ->
  wait_loop fuel reached w env = spin_until reached w env.
Proof.
  unfold spin_until. remember (length env) as n eqn:Hn.
  assert (Hle : (length env <= n)%nat) by lia. clear Hn.
  revert n w env Hle.
  induction fuel as [|fuel IH]; intros n w env Hn Hfuel.
  - destruct env; [|simpl in *; lia].
    destruct n; [reflexivity | now rewrite wait_loop_step].
  - rewrite wait_loop_step. destruct n as [|n].
    + destruct env; [reflexivity | simpl in *; lia].
    + rewrite wait_loop_step.
      destruct (atomic_read w env) as [[[cur w1] env1]| |] eqn:Hs;
        try reflexivity.
      pose proof (atomic_read_shorter _ _ _ _ _ Hs).
      destruct (elapsed cur >=? T); [reflexivity|].
      apply IH; lia.
Qed.

Lemma spin_until_no_fault w env e : spin_until reached w env <> Fault e.
Proof.
  unfold spin_until. generalize (length env) as fuel. intros fuel.
  revert w env. induction fuel as [|fuel IH]; intros w env; [discriminate|].
  rewrite wait_loop_step.
  destruct (atomic_read w env) as [[[cur w1] env1]| |] eqn:Hs.
  - destruct (elapsed cur >=? T); [discriminate | apply IH].
  - now apply atomic_read_no_fault in Hs.
  - discriminate.
Qed.

(** The sample on which the loop leaves shows at least [T] ticks. *)
Lemma spins_last w env w' rest :
  spins elapsed T w env w' rest ->
  exists cur wp envp,
    atomic_read wp envp = Ret (cur, w', rest) /\ T <= elapsed cur.
Proof.
  induction 1 as [w env cur w' rest Hs Hge|? ? ? ? ? ? ? _ _ _ IH].
  - now exists cur, w, env.
  - exact IH.
Qed.
End WaitLoop.

Lemma spins_ext elapsed1 elapsed2 T w env w' rest :
  (forall cur, elapsed1 cur = elapsed2 cur) ->
  spins elapsed1 T w env w' rest -> spins elapsed2 T w env w' rest.
Proof.
  intros Hext. induction 1 as [? ? cur ? ? Hs Hge|? ? cur ? ? ? ? Hs Hlt _ IH].
  - eapply spins_hit; [exact Hs | now rewrite <- Hext].
  - eapply spins_miss; [exact Hs | now rewrite <- Hext | exact IH].
Qed.

(** ** Delays *)

Lemma DelayUS_ticks_frame g1 g2 us :
  clock_freq g1 = clock_freq g2 -> optim g1 = optim g2 ->
  DelayUS_ticks g1 us = DelayUS_ticks g2 us.
Proof. unfold DelayUS_ticks. now intros -> ->. Qed.

Lemma DelayNS_ticks_frame g1 g2 ns :
  clock_freq g1 = clock_freq g2 ->
  DelayNS_ticks g1 ns = DelayNS_ticks g2 ns.
Proof. unfold DelayNS_ticks. now intros ->. Qed.

(** The common shape of [TimerLib_DelayNS] and [TimerLib_DelayUS]: take a
    baseline, compute the target from the configuration, spin. *)
Lemma delay_run (ticks_of : Globals -> Z) w env w' rest :
  (start ← atomic_read;
   g ← get_glob;
   spin_until (fun cur => delay_elapsed (arr_value g) start cur >=? ticks_of g))
    w env = Ret (tt, w', rest)
  <-> exists start w1 env1,
        atomic_read w env = Ret (start, w1, env1)
        /\ spins (ticks_between (arr_value (glob w))
                    (mkHandle (cnt start) (ovf start)))
                 (ticks_of (glob w1)) w1 env1 w' rest.
Proof.
  split.
  - intros H. apply bind_Ret_inv in H as (start & w1 & env1 & Hs & H).
    exists start, w1, env1. split; [exact Hs|].
    unfold mbind, M_bind, get_glob in H.
    apply spin_until_spins in H.
    rewrite (fr_arr _ _ (atomic_read_frame _ _ _ _ _ Hs)) in H.
    eapply spins_ext; [|exact H]. intros cur. apply delay_elapsed_spec.
  - intros (start & w1 & env1 & Hs & H).
    rewrite (bind_Ret _ _ _ _ _ _ _ Hs). unfold mbind, M_bind, get_glob.
    apply spin_until_spins.
    rewrite (fr_arr _ _ (atomic_read_frame _ _ _ _ _ Hs)).
    eapply spins_ext; [|exact H]. intros cur. symmetry. apply delay_elapsed_spec.
Qed.





Lemma short_delay_ok_spec g us :
  short_delay_ok g us = true
  <-> us_optimized (optim g) = true /\ us < 1000
      /\ overflowPreMS (optim g) <= 1.
Proof.
  unfold short_delay_ok. rewrite !andb_true_iff, Z.ltb_lt, Z.leb_le. tauto.
Qed.

(** [TimerLib_DelayUS_32Short], once its baseline sample is taken: when
    [us_optimized], [us < 1000] and [overflowPreMS <= 1] do not all hold
    it returns -1 there and then, reading no further sample; when they
    all hold it returns exactly when its wait loop finds a sample for
    which the single-wrap formula reaches [us * us_per_tick], and then it
    returns 0. *)
Lemma DelayUS_32Short_run us w env start w1 rest :
  atomic_read w env = Ret (start, w1, rest) ->
  let g := glob w in
  (~ (us_optimized (optim g) = true /\ us < 1000
      /\ overflowPreMS (optim g) <= 1) ->
   TimerLib_DelayUS_32Short us w env = Ret (-1, w1, rest))
  /\ (us_optimized (optim g) = true /\ us < 1000
      /\ overflowPreMS (optim g) <= 1 ->
      forall r w' rest',
        TimerLib_DelayUS_32Short us w env = Ret (r, w', rest')
        <-> r = 0
            /\ spins (fun cur =>
                        if ovf cur >? ovf start
                        then wrap32 (wrap32 (arr_value g - cnt start) + cnt cur)
                        else wrap32 (cnt cur - cnt start))
                     (wrap32 (us * us_per_tick (optim g))) w1 rest w' rest').
Proof.
  intros Hs g. subst g. set (g := glob w).
  change (fun cur : Sample =>
            if ovf cur >? ovf start
            then wrap32 (wrap32 (arr_value g - cnt start) + cnt cur)
            else wrap32 (cnt cur - cnt start))
    with (short_elapsed (arr_value g) start).
  destruct (atomic_read_frame _ _ _ _ _ Hs) as [_ Fa Fc Fo _].
  assert (Hok : short_delay_ok (glob w1) us = short_delay_ok g us).
  { unfold short_delay_ok. now rewrite Fo. }
  assert (Hrun :
    TimerLib_DelayUS_32Short us w env
    = (if negb (short_delay_ok g us)
       then mret (-1)
       else spin_until
              (fun cur => short_elapsed (arr_value g) start cur
                          >=? wrap32 (us * us_per_tick (optim g)));;
            mret 0) w1 rest).
  { unfold TimerLib_DelayUS_32Short. rewrite (bind_Ret _ _ _ _ _ _ _ Hs).
    unfold mbind at 1. unfold M_bind at 1. unfold get_glob.
    now rewrite Hok, Fo, Fa. }
  rewrite Hrun. clear Hrun. clearbody g.
  split.
  - intros Hno. destruct (short_delay_ok g us) eqn:E.
    + apply short_delay_ok_spec in E. contradiction.
    + reflexivity.
  - intros Hyes. apply short_delay_ok_spec in Hyes. rewrite Hyes. simpl.
    intros r w' rest'. unfold mbind, M_bind.
    pose proof (spin_until_spins (short_elapsed (arr_value g) start)
                  (wrap32 (us * us_per_tick (optim g))) w1 rest) as Hiff.
    cbv zeta in Hiff.
    destruct (spin_until _ w1 rest) as [[[[] w2] env2]|e|] eqn:Hrun.
    + unfold mret, M_ret. split.
      * intros [= <- <- <-]. split; [reflexivity|]. now apply Hiff.
      * intros (-> & Hsp). apply Hiff in Hsp. now injection Hsp as <- <-.
    + split; [discriminate|]. intros (_ & Hsp). apply Hiff in Hsp. discriminate.
    + split; [discriminate|]. intros (_ & Hsp). apply Hiff in Hsp. discriminate.
Qed.

Example DelayUS_32Short_run_8MHz :
  TimerLib_DelayUS_32Short 1500 world_8MHz [still; mkProbe 7992 0 0]
  = Ret (-1, world_8MHz, [mkProbe 7992 0 0])
  /\ TimerLib_DelayUS_32Short 999 world_8MHz [still; mkProbe 7992 0 0]
     = Ret (0, advance 7992 world_8MHz, []).
Proof. split; vm_compute; reflexivity. Qed.

(** C8 (amended).  Target tick counts for a 32-bit duration [us] and a
    32-bit frequency.  [TimerLib_DelayUS] on the scaled path computes
    exactly [us * clock_freq / 1000000], the 64-bit product never
    overflowing, and on the exact path [us * us_per_tick] whenever that
    product fits in 32 bits.  [TimerLib_DelayUS_32] works in 32 bits
    throughout: [us * us_per_tick] modulo 2^32 on the exact path, and the
    quotient by 1000000 of [us * clock_freq] modulo 2^32 on the scaled
    path; these are the exact values whenever the product fits in 32
    bits. *)
Theorem delay_targets g us :
  uint32 us ->
  uint32 (clock_freq g) ->
  let exact := us_optimized (optim g) in
  (exact = false -> DelayUS_ticks g us = us * clock_freq g / 1000000)
  /\ (exact = true -> uint32 (us * us_per_tick (optim g)) ->
      DelayUS_ticks g us = us * us_per_tick (optim g))
  /\ (exact = true ->
      DelayUS_32_ticks g us = wrap32 (us * us_per_tick (optim g)))
  /\ (exact = false ->
      DelayUS_32_ticks g us = wrap32 (us * clock_freq g) / 1000000)
  /\ (exact = true -> uint32 (us * us_per_tick (optim g)) ->
      DelayUS_32_ticks g us = us * us_per_tick (optim g))
  /\ (exact = false -> uint32 (us * clock_freq g) ->
      DelayUS_32_ticks g us = us * clock_freq g / 1000000).
Proof.
  intros Hus Hclk exact. subst exact.
  unfold DelayUS_ticks, DelayUS_32_ticks.
  repeat split; intros E; rewrite E; try reflexivity.
  - rewrite wrap64_small; [reflexivity|]. unfold uint32, uint64 in *. nia.
  - intros Hfit. now rewrite wrap32_small.
  - intros Hfit. now rewrite wrap32_small.
  - intros Hfit. now rewrite wrap32_small.
Qed.

Lemma delay_targets_witness :
  DelayUS_ticks globals_1500kHz 3000 = 3000 * 1500000 / 1000000
  /\ DelayUS_32_ticks (glob world_5s) 1000 = 72000.
Proof.
  assert (H1 : uint32 3000) by (unfold uint32; lia).
  assert (H2 : uint32 (clock_freq globals_1500kHz))
    by (unfold uint32; simpl; lia).
  assert (H3 : uint32 1000) by (unfold uint32; lia).
  assert (H4 : uint32 (clock_freq (glob world_5s)))
    by (unfold uint32; simpl; lia).
  split.
  - exact (proj1 (delay_targets globals_1500kHz 3000 H1 H2) eq_refl).
  - refine (proj1 (proj2 (proj2 (proj2 (proj2
              (delay_targets (glob world_5s) 1000 H3 H4))))) eq_refl _).
    unfold uint32. simpl. lia.
Defined.

(** C8, as stated, fails.  At 1.5 MHz a delay of 3000 us needs 4500
    ticks; the 32-bit product of [TimerLib_DelayUS_32] wraps and the
    target is 205.  At 72 MHz a delay of 60 s needs 4320000000 ticks; the
    exact path of [TimerLib_DelayUS] multiplies in 32 bits and the target
    is 25032704. *)
Lemma delay_target_overflows :
  (us_optimized (optim globals_1500kHz) = false
   /\ 3000 * clock_freq globals_1500kHz / 1000000 = 4500
   /\ DelayUS_32_ticks globals_1500kHz 3000 = 205)
  /\ (us_optimized (optim (glob world_5s)) = true
      /\ 60000000 * us_per_tick (optim (glob world_5s)) = 4320000000
      /\ DelayUS_ticks (glob world_5s) 60000000 = 25032704).
Proof. repeat split. Qed.

(** ** Consistency of samples *)

Lemma advance_succ n w : advance (N.succ n) w = hw_tick (advance n w).
Proof. unfold advance. apply N.iter_succ. Qed.

(** Over [n] ticks the overflow counter is incremented once per wrap, at
    most [n] times. *)
Lemma advance_overflow n w :
  exists k,
    0 <= k <= Z.of_N n
    /\ overflow_counter (glob (advance n w))
       = (if k =? 0 then overflow_counter (glob w)
          else wrap32 (overflow_counter (glob w) + k)).
Proof.
  induction n as [|n IH] using N.peano_ind.
  - exists 0. split; [lia | reflexivity].
  - destruct IH as (k & Hk & Ho). rewrite advance_succ. unfold hw_tick.
    destruct (_ <? _).
    + exists k. split; [lia | exact Ho].
    + exists (k + 1). split; [lia|]. simpl. rewrite Ho.
      destruct (Z.eqb_spec (k + 1) 0) as [|_]; [lia|].
      destruct (Z.eqb_spec k 0) as [->|_]; [reflexivity|]. wrap32_ring.
Qed.

Lemma advance_overflow_range n w :
  uint32 (overflow_counter (glob w)) ->
  uint32 (overflow_counter (glob (advance n w))).
Proof.
  intros Hw. destruct (advance_overflow n w) as (k & _ & ->).
  destruct (k =? 0); [exact Hw | apply wrap32_range].
Qed.

Lemma elapse_overflow_range used w :
  uint32 (overflow_counter (glob w)) ->
  uint32 (overflow_counter (glob (elapse used w))).
Proof.
  revert w. induction used as [|p used IH]; intros w Hw; simpl; [exact Hw|].
  apply IH. unfold after_probe, at_count. now repeat apply advance_overflow_range.
Qed.

(** A counter that reads the same after fewer than 2^32 ticks has not
    been incremented in between. *)
Lemma overflow_unchanged n1 n2 w :
  uint32 (overflow_counter (glob w)) ->
  (n1 + n2 < 2 ^ 32)%N ->
  overflow_counter (glob (advance n2 (advance n1 w)))
  = overflow_counter (glob w) ->
  overflow_counter (glob (advance n1 w)) = overflow_counter (glob w).
Proof.
  intros Hw Hn.
  destruct (advance_overflow n1 w) as (k1 & Hk1 & E1).
  destruct (advance_overflow n2 (advance n1 w)) as (k2 & Hk2 & E2).
  rewrite E2, E1. clear E1 E2.
  assert (Hsum : k1 + k2 < 2 ^ 32) by lia.
  unfold uint32 in Hw. unfold wrap32.
  destruct (Z.eqb_spec k1 0) as [->|Hk1ne]; [reflexivity|].
  destruct (Z.eqb_spec k2 0) as [->|Hk2ne]; [auto|].
  rewrite Zplus_mod_idemp_l. intros H. exfalso.
  pose proof (Z.div_mod (overflow_counter (glob w) + k1 + k2) (2 ^ 32)) as D.
  pose proof (Z.mod_pos_bound (overflow_counter (glob w) + k1 + k2) (2 ^ 32)).
  assert (overflow_counter (glob w) + k1 + k2 < 2 * 2 ^ 32) by lia.
  assert ((overflow_counter (glob w) + k1 + k2) / 2 ^ 32 < 2)
    by (apply Z.div_lt_upper_bound; lia).
  assert (0 <= (overflow_counter (glob w) + k1 + k2) / 2 ^ 32)
    by (apply Z.div_pos; lia).
  lia.
Qed.

(** C9.  With the timer modelled as the specification describes it (a
    wrap and its overflow notification are one step of the environment,
    which may take any number of steps between two accesses of the
    program) and fewer than 2^32 ticks between the first and the last
    access of an attempt, the pair returned by the read / count / re-read
    loop is the counter and the overflow counter of one instant: the
    instant at which the returning attempt read the counter. *)
Theorem atomic_read_consistent env w s w' rest :
  uint32 (overflow_counter (glob w)) ->
  (forall p, In p env -> (d_cnt p + d_chk p < 2 ^ 32)%N) ->
  atomic_read w env = Ret (s, w', rest) ->
  exists used p,
    env = used ++ p :: rest
    /\ cnt s = get_current_cnt (at_count p (elapse used w))
    /\ ovf s = overflow_counter (glob (at_count p (elapse used w))).
Proof.
  intros Hw Hbound H.
  destruct (atomic_read_inv _ _ _ _ _ H)
    as (used & p & Henv & Ho & Hc & Hw' & Hs).
  exists used, p. split; [exact Henv|]. split; [exact Hc|].
  rewrite Ho. symmetry. unfold at_count.
  apply overflow_unchanged with (n2 := d_chk p).
  - apply advance_overflow_range, elapse_overflow_range, Hw.
  - apply Hbound. rewrite Henv. apply in_or_app. right. now left.
  - rewrite <- Ho, <- Hs, Hw'. reflexivity.
Qed.

(** A wrap between the first read and the count is caught by the
    re-read: the attempt is retried and the next one returns a pair of
    one instant. *)
Lemma atomic_read_consistent_witness :
  atomic_read world_8MHz [mkProbe 7999 1 0; still]
  = Ret (mkSample 0 1, advance 8000 world_8MHz, [])
  /\ exists used p,
       [mkProbe 7999 1 0; still] = used ++ p :: []
       /\ 0 = get_current_cnt (at_count p (elapse used world_8MHz))
       /\ 1 = overflow_counter (glob (at_count p (elapse used world_8MHz))).
Proof.
  assert (H : atomic_read world_8MHz [mkProbe 7999 1 0; still]
              = Ret (mkSample 0 1, advance 8000 world_8MHz, []))
    by (vm_compute; reflexivity).
  split; [exact H|].
  refine (atomic_read_consistent _ world_8MHz (mkSample 0 1)
            (advance 8000 world_8MHz) [] _ _ H).
  - unfold uint32. simpl. lia.
  - intros p [<-|[<-|[]]]; simpl; lia.
Defined.

(** ** Termination of the loops, and further facts *)

(** X12.  The sampling loop returns as soon as the trace holds one
    attempt during which the timer does not tick between the first read
    of the overflow counter and the re-read. *)
Lemma atomic_read_returns env w p :
  In p env -> stable p ->
  exists s w' rest, atomic_read w env = Ret (s, w', rest).
Proof.
  unfold atomic_read. revert w.
  induction env as [|q env IH]; intros w Hin Hst; [destruct Hin|].
  simpl. destruct (negb _) eqn:E.
  - destruct Hin as [->|Hin]; [|now apply IH].
    destruct Hst as (Hc & Hk). rewrite Hc, Hk in E. simpl in E.
    now rewrite Z.eqb_refl in E.
  - eauto.
Qed.

Lemma InitHandle_run htim w env cur w1 rest :
  atomic_read w env = Ret (cur, w1, rest) ->
  TimerLib_InitHandle htim w env
  = Ret (tt, store_handle htim (mkHandle (cnt cur) (ovf cur)) w1, rest).
Proof.
  intros Hs. unfold TimerLib_InitHandle.
  now rewrite (bind_Ret _ _ _ _ _ _ _ Hs).
Qed.

(** The elapsed count of the wait loops is a 32-bit value: a target of
    2^32 ticks or more is never reached. *)
Lemma spins_below_2pow32 arr h T w env w' rest :
  spins (ticks_between arr h) T w env w' rest -> T < 2 ^ 32.
Proof.
  intros H. apply spins_last in H as (cur & _ & _ & _ & Hge).
  rewrite ticks_between_spec in Hge.
  pose proof (wrap32_range (ElapsedTicks_spec arr h cur)) as Hr.
  unfold uint32 in Hr. lia.
Qed.

(** With no wrap between baseline and sample the result is
    [raw1 - raw0]; across [n] further wraps it is
    [n * reload + (reload - raw0) + raw1], as long as that fits. *)
Example ticks_between_no_wrap arr raw0 raw1 o :
  0 <= raw0 <= raw1 -> raw1 < 2 ^ 32 ->
  ticks_between arr (mkHandle raw0 o) (mkSample raw1 o) = raw1 - raw0.
Proof.
  intros H0 H1. rewrite ticks_between_spec, ElapsedTicks_spec_flat. simpl.
  replace ((o - o) * arr + raw1 - raw0) with (raw1 - raw0) by ring.
  apply wrap32_small. unfold uint32. lia.
Qed.

Example ticks_between_wraps arr raw0 raw1 o n :
  uint32 (n * arr + (arr - raw0) + raw1) ->
  ticks_between arr (mkHandle raw0 o) (mkSample raw1 (o + n + 1))
  = n * arr + (arr - raw0) + raw1.
Proof.
  intros Hfit. rewrite ticks_between_spec, ElapsedTicks_spec_flat. simpl.
  replace ((o + n + 1 - o) * arr + raw1 - raw0)
    with (n * arr + (arr - raw0) + raw1) by ring.
  now apply wrap32_small.
Qed.

(** Reload 8000 at 8 MHz: 8 ticks are one microsecond. *)
Example convert_8_ticks :
  us_per_tick (optim (glob world_8MHz)) = 8
  /\ us_of_ticks_spec (glob world_8MHz) 8 = 1.
Proof. split; reflexivity. Qed.

(** The retry at work: the timer wraps between the read of the overflow
    counter and the read of the count, the re-read differs, and the
    attempt is repeated. *)
Example atomic_read_retries :
  atomic_read world_8MHz [mkProbe 7999 1 0; still]
  = Ret (mkSample 0 1, advance 8000 world_8MHz, []).
Proof. vm_compute. reflexivity. Qed.

(** * Further properties of the library *)

(** ** The timer position advances with the ticks *)

Lemma advance_add n m w : advance (n + m) w = advance n (advance m w).
Proof. unfold advance. apply N.iter_add. Qed.

Lemma after_probe_span p w : after_probe p w = advance (span p) w.
Proof.
  unfold after_probe, at_count, span. rewrite <- !advance_add. f_equal. lia.
Qed.

Lemma elapse_duration used w : elapse used w = advance (duration used) w.
Proof.
  revert w. induction used as [|p used IH]; intros w; simpl; [reflexivity|].
  rewrite IH, after_probe_span, <- advance_add. f_equal. lia.
Qed.

Lemma hw_tick_ok w : hw_ok w -> hw_ok (hw_tick w).
Proof.
  unfold hw_ok, hw_tick. intros H.
  destruct (Z.ltb_spec (CNT (TIM1 w) + 1) (ARR (TIM1 w))); simpl; lia.
Qed.

Lemma advance_ok n w : hw_ok w -> hw_ok (advance n w).
Proof.
  intros H. unfold advance. apply N.iter_invariant; [|exact H].
  intros w'. apply hw_tick_ok.
Qed.

Lemma stamp_hw_tick w :
  hw_ok w -> cong32 (stamp (hw_tick w)) (stamp w + 1).
Proof.
  unfold hw_ok, hw_tick, stamp. intros H.
  destruct (Z.ltb_spec (CNT (TIM1 w) + 1) (ARR (TIM1 w))); simpl.
  - replace (overflow_counter (glob w) * ARR (TIM1 w) + (CNT (TIM1 w) + 1))
      with (overflow_counter (glob w) * ARR (TIM1 w) + CNT (TIM1 w) + 1)
      by ring.
    reflexivity.
  - assert (E : CNT (TIM1 w) = ARR (TIM1 w) - 1) by lia.
    rewrite cong32_wrap, E.
    replace ((overflow_counter (glob w) + 1) * ARR (TIM1 w) + 0)
      with (overflow_counter (glob w) * ARR (TIM1 w) + (ARR (TIM1 w) - 1) + 1)
      by ring.
    reflexivity.
Qed.

(** Modulo 2^32 the position after [n] ticks is the position before plus
    [n], whatever the overflow counter does. *)
Lemma stamp_advance n w :
  hw_ok w -> cong32 (stamp (advance n w)) (stamp w + Z.of_N n).
Proof.
  intros Hok. induction n as [|n IH] using N.peano_ind.
  - simpl. now rewrite Z.add_0_r.
  - rewrite advance_succ, (stamp_hw_tick _ (advance_ok n w Hok)), IH.
    rewrite N2Z.inj_succ.
    replace (stamp w + Z.of_N n + 1) with (stamp w + Z.succ (Z.of_N n)) by lia.
    reflexivity.
Qed.

(** As long as the overflow counter itself does not wrap, it is so
    exactly. *)
Lemma stamp_advance_exact n w :
  hw_ok w ->
  uint32 (overflow_counter (glob w)) ->
  stamp w + Z.of_N n < 2 ^ 32 * ARR (TIM1 w) ->
  stamp (advance n w) = stamp w + Z.of_N n
  /\ uint32 (overflow_counter (glob (advance n w))).
Proof.
  intros Hok Ho. induction n as [|n IH] using N.peano_ind; intros Hlt.
  - simpl. split; [lia | exact Ho].
  - rewrite N2Z.inj_succ in Hlt. destruct IH as (IH & Hr); [lia|].
    pose proof (advance_ok n w Hok) as Hok'.
    pose proof (fr_ARR _ _ (advance_frame n w)) as EA.
    rewrite advance_succ, N2Z.inj_succ. revert IH Hr Hok' EA.
    generalize (advance n w). intros v IH Hr Hok' EA.
    unfold hw_ok, stamp, hw_tick, uint32 in *.
    destruct (Z.ltb_spec (CNT (TIM1 v) + 1) (ARR (TIM1 v))); simpl.
    + split; lia.
    + assert (E : CNT (TIM1 v) = ARR (TIM1 v) - 1) by lia.
      assert (Hs : overflow_counter (glob v) + 1 < 2 ^ 32) by nia.
      rewrite wrap32_small by (unfold uint32; lia).
      split; [nia | lia].
Qed.

(** ** Samples are instants *)

(** The sample returned by the sampling loop, the instant it belongs to
    and the world the loop leaves. *)
Lemma atomic_read_instant env w s w' rest :
  uint32 (overflow_counter (glob w)) ->
  brisk env ->
  atomic_read w env = Ret (s, w', rest) ->
  exists used p,
    env = used ++ p :: rest
    /\ cnt s = CNT (TIM1 (at_count p (elapse used w)))
    /\ ovf s = overflow_counter (glob (at_count p (elapse used w)))
    /\ w' = advance (d_chk p) (at_count p (elapse used w)).
Proof.
  intros Hw Hbound H.
  destruct (atomic_read_inv _ _ _ _ _ H)
    as (used & p & Henv & Ho & Hc & Hw' & Hs).
  exists used, p. split; [exact Henv|]. split; [exact Hc|].
  split; [|exact Hw'].
  rewrite Ho. symmetry. unfold at_count.
  apply overflow_unchanged with (n2 := d_chk p).
  - apply advance_overflow_range, elapse_overflow_range, Hw.
  - apply Hbound. rewrite Henv. apply in_or_app. right. now left.
  - rewrite <- Ho, <- Hs, Hw'. reflexivity.
Qed.

Lemma brisk_app env1 env2 : brisk (env1 ++ env2) -> brisk env1 /\ brisk env2.
Proof.
  unfold brisk. intros H. split; intros p Hin; apply H, in_or_app; auto.
Qed.

Lemma at_count_ticks p used w :
  at_count p (elapse used w)
  = advance (duration used + d_ovf p + d_cnt p) w.
Proof.
  unfold at_count. rewrite elapse_duration, <- !advance_add. f_equal. lia.
Qed.

Lemma duration_app used1 used2 :
  duration (used1 ++ used2) = (duration used1 + duration used2)%N.
Proof.
  induction used1 as [|p used1 IH]; simpl; [reflexivity|]. rewrite IH. lia.
Qed.

(** A sample read as a position is the position of the timer at the
    instant the count was read. *)
Lemma sample_stamp env w s w' rest :
  uint32 (overflow_counter (glob w)) ->
  brisk env ->
  atomic_read w env = Ret (s, w', rest) ->
  exists used p,
    env = used ++ p :: rest
    /\ ovf s * ARR (TIM1 w) + cnt s
       = stamp (advance (duration used + d_ovf p + d_cnt p) w)
    /\ w' = advance (d_chk p) (advance (duration used + d_ovf p + d_cnt p) w).
Proof.
  intros Hw Hb H.
  destruct (atomic_read_instant _ _ _ _ _ Hw Hb H)
    as (used & p & Henv & Hc & Ho & Hw').
  exists used, p. rewrite <- at_count_ticks. split; [exact Henv|].
  split; [|exact Hw'].
  unfold stamp. rewrite Ho, Hc. f_equal. f_equal.
  unfold at_count. symmetry.
  eapply fr_ARR, env_frame_trans; [apply elapse_frame|].
  eapply env_frame_trans; apply advance_frame.
Qed.

Lemma cumulative_no_wrap o a c :
  uint32 o -> uint32 a -> uint32 c ->
  wrap64 (wrap64 (o * a) + c) = o * a + c.
Proof.
  unfold uint32. intros Ho Ha Hc.
  rewrite (wrap64_small (o * a)) by (unfold uint64; nia).
  apply wrap64_small. unfold uint64. nia.
Qed.

(** X2.  In a library configured with the timer's reload value, the
    cumulative tick count of [calculate_Timestamp] is the position of the
    timer when the call began plus the ticks that passed until the call
    read the counter: always so modulo 2^32, and exactly so as long as the
    32-bit overflow counter has not wrapped. *)
Theorem timestamp_counts_ticks w env v w' rest :
  hw_ok w ->
  wf_world w ->
  reload_matches w ->
  brisk env ->
  calculate_Timestamp w env = Ret (v, w', rest) ->
  exists used p,
    env = used ++ p :: rest
    /\ let n := Z.of_N (duration used + d_ovf p + d_cnt p) in
       wrap32 v = wrap32 (stamp w + n)
       /\ (stamp w + n < 2 ^ 32 * arr_value (glob w) -> v = stamp w + n).
Proof.
  intros Hok Hwf Hm Hb H.
  destruct (calculate_Timestamp_inv _ _ _ _ _ H) as (cur & Hs & ->).
  destruct (atomic_read_wf _ _ _ _ _ Hwf Hs) as (Hc & Ho & _).
  pose proof Hwf as (Ha & Hov & _).
  rewrite (cumulative_no_wrap _ _ _ Ho Ha Hc).
  destruct (sample_stamp _ _ _ _ _ Hov Hb Hs) as (used & p & Henv & Hst & _).
  exists used, p. split; [exact Henv|]. unfold reload_matches in Hm.
  rewrite Hm, Hst. split.
  - apply cong32_eq, stamp_advance, Hok.
  - intros Hlt. now apply stamp_advance_exact.
Qed.

Lemma timestamp_counts_ticks_witness :
  exists used p,
    [mkProbe 7999 1 0; mkProbe 5 3 0] = used ++ p :: []
    /\ wrap32 8008
       = wrap32 (stamp world_8MHz
                 + Z.of_N (duration used + d_ovf p + d_cnt p)).
Proof.
  assert (Hok : hw_ok world_8MHz) by (unfold hw_ok; simpl; lia).
  assert (Hwf : wf_world world_8MHz)
    by (unfold wf_world, uint32; simpl; lia).
  assert (Hb : brisk [mkProbe 7999 1 0; mkProbe 5 3 0])
    by (intros p [<-|[<-|[]]]; simpl; lia).
  destruct (timestamp_counts_ticks world_8MHz
              [mkProbe 7999 1 0; mkProbe 5 3 0] 8008
              (advance 8008 world_8MHz) [] Hok Hwf eq_refl Hb)
    as (used & p & Henv & Hmod & _).
  - vm_compute. reflexivity.
  - exists used, p. split; [exact Henv | exact Hmod].
Defined.

(** ** Intervals and delays in real ticks *)

Lemma wrap32_stamp_difference (a b : Z) (n : N) :
  cong32 b (a + Z.of_N n) -> wrap32 (b - a) = wrap32 (Z.of_N n).
Proof.
  intros H. apply cong32_eq. rewrite H.
  replace (a + Z.of_N n - a) with (Z.of_N n) by ring. reflexivity.
Qed.

(** The tick delta between a baseline sample and a later sample is the
    number of ticks between the two reads of the counter, modulo 2^32. *)
Lemma ticks_between_real w env0 s0 wa env1 w1 s1 wb env2 :
  hw_ok w ->
  uint32 (overflow_counter (glob w)) ->
  brisk env0 ->
  atomic_read w env0 = Ret (s0, wa, env1) ->
  hw_ok w1 -> stamp w1 = stamp wa -> ARR (TIM1 w1) = ARR (TIM1 wa) ->
  overflow_counter (glob w1) = overflow_counter (glob wa) ->
  brisk env1 ->
  atomic_read w1 env1 = Ret (s1, wb, env2) ->
  exists used0 p0 used1 p1,
    env0 = used0 ++ p0 :: env1
    /\ env1 = used1 ++ p1 :: env2
    /\ ticks_between (ARR (TIM1 w)) (mkHandle (cnt s0) (ovf s0)) s1
       = wrap32 (Z.of_N (d_chk p0 + duration used1 + d_ovf p1 + d_cnt p1)).
Proof.
  intros Hok Ho Hb0 H0 Hok1 Hst Harr Hov Hb1 H1.
  destruct (sample_stamp _ _ _ _ _ Ho Hb0 H0) as (used0 & p0 & E0 & S0 & Wa).
  assert (Ho1 : uint32 (overflow_counter (glob w1))).
  { rewrite Hov, Wa. now repeat apply advance_overflow_range. }
  destruct (sample_stamp _ _ _ _ _ Ho1 Hb1 H1) as (used1 & p1 & E1 & S1 & _).
  exists used0, p0, used1, p1. split; [exact E0|]. split; [exact E1|].
  assert (EA : ARR (TIM1 w1) = ARR (TIM1 w)).
  { rewrite Harr. eapply fr_ARR, atomic_read_frame, H0. }
  rewrite EA in S1.
  rewrite ticks_between_spec, ElapsedTicks_spec_flat. simpl.
  replace ((ovf s1 - ovf s0) * ARR (TIM1 w) + cnt s1 - cnt s0)
    with ((ovf s1 * ARR (TIM1 w) + cnt s1) - (ovf s0 * ARR (TIM1 w) + cnt s0))
    by ring.
  rewrite S0, S1. apply wrap32_stamp_difference.
  set (n0 := (duration used0 + d_ovf p0 + d_cnt p0)%N) in *.
  rewrite (stamp_advance _ w1 Hok1), Hst, Wa.
  rewrite (stamp_advance (d_chk p0) _ (advance_ok n0 w Hok)).
  replace (Z.of_N (d_chk p0 + duration used1 + d_ovf p1 + d_cnt p1))
    with (Z.of_N (d_chk p0) + Z.of_N (duration used1 + d_ovf p1 + d_cnt p1))
    by lia.
  rewrite Z.add_assoc. reflexivity.
Qed.

(** X1.  In a library configured with the timer's reload value, the first
    interval query after [TimerLib_InitHandle] returns, modulo 2^32, the
    number of timer ticks that passed between the read of the counter in
    [TimerLib_InitHandle] and the read of the counter in the query. *)
Theorem interval_measures_ticks htim w env w1 env1 v w2 env2 :
  hw_ok w ->
  uint32 (overflow_counter (glob w)) ->
  reload_matches w ->
  brisk env ->
  TimerLib_InitHandle htim w env = Ret (tt, w1, env1) ->
  calculate_ticks htim w1 env1 = Ret (v, w2, env2) ->
  exists used0 p0 used1 p1,
    env = used0 ++ p0 :: env1
    /\ env1 = used1 ++ p1 :: env2
    /\ v = wrap32 (Z.of_N (d_chk p0 + duration used1 + d_ovf p1 + d_cnt p1)).
Proof.
  intros Hok Ho Hm Hb Hinit Hq.
  unfold TimerLib_InitHandle in Hinit.
  apply bind_Ret_inv in Hinit as (s0 & wa & enva & H0 & Hw).
  unfold write_handle in Hw. injection Hw as <- <-.
  apply calculate_ticks_inv in Hq as (base & s1 & wb & Hbase & H1 & -> & _).
  simpl in Hbase. rewrite lookup_insert_eq in Hbase. injection Hbase as <-.
  assert (Hb1 : brisk enva).
  { destruct (atomic_read_elapse _ _ _ _ _ H0) as (used & -> & _).
    now apply brisk_app in Hb. }
  assert (Hoka : hw_ok wa).
  { destruct (atomic_read_elapse _ _ _ _ _ H0) as (used & _ & ->).
    rewrite elapse_duration. now apply advance_ok. }
  destruct (ticks_between_real w env s0 wa enva
              (store_handle htim (mkHandle (cnt s0) (ovf s0)) wa) s1 wb env2)
    as (used0 & p0 & used1 & p1 & E0 & E1 & Hv); auto.
  exists used0, p0, used1, p1. split; [exact E0|]. split; [exact E1|].
  rewrite <- Hv. f_equal. simpl.
  rewrite (fr_arr _ _ (atomic_read_frame _ _ _ _ _ H0)). exact Hm.
Qed.

Lemma interval_measures_ticks_witness :
  exists used0 p0 used1 p1,
    [mkProbe 2 0 4; mkProbe 7993 1 0; mkProbe 5 3 9]
    = used0 ++ p0 :: [mkProbe 7993 1 0; mkProbe 5 3 9]
    /\ [mkProbe 7993 1 0; mkProbe 5 3 9] = used1 ++ p1 :: []
    /\ 8006
       = wrap32 (Z.of_N (d_chk p0 + duration used1 + d_ovf p1 + d_cnt p1)).
Proof.
  assert (Hok : hw_ok world_8MHz) by (unfold hw_ok; simpl; lia).
  assert (Ho : uint32 (overflow_counter (glob world_8MHz)))
    by (unfold uint32; simpl; lia).
  assert (Hb : brisk [mkProbe 2 0 4; mkProbe 7993 1 0; mkProbe 5 3 9])
    by (intros p [<-|[<-|[<-|[]]]]; simpl; lia).
  refine (interval_measures_ticks 7 world_8MHz
            [mkProbe 2 0 4; mkProbe 7993 1 0; mkProbe 5 3 9]
            (store_handle 7 (mkHandle 2 0) (advance 6 world_8MHz))
            [mkProbe 7993 1 0; mkProbe 5 3 9] 8006
            (store_handle 7 (mkHandle 8 1) (advance 8017 world_8MHz)) []
            Hok Ho eq_refl Hb _ _).
  - vm_compute. reflexivity.
  - vm_compute. reflexivity.
Defined.

Lemma ticks_between_stamps A s0 s1 (n : N) a b :
  ovf s0 * A + cnt s0 = a ->
  ovf s1 * A + cnt s1 = b ->
  cong32 b (a + Z.of_N n) ->
  ticks_between A (mkHandle (cnt s0) (ovf s0)) s1 = wrap32 (Z.of_N n).
Proof.
  intros Ha Hb H. rewrite ticks_between_spec, ElapsedTicks_spec_flat. simpl.
  replace ((ovf s1 - ovf s0) * A + cnt s1 - cnt s0)
    with ((ovf s1 * A + cnt s1) - (ovf s0 * A + cnt s0)) by ring.
  rewrite Ha, Hb. now apply wrap32_stamp_difference.
Qed.

(** The sample on which a wait loop leaves, as a position. *)
Lemma spins_stamp elapsed T w env w' rest :
  uint32 (overflow_counter (glob w)) ->
  brisk env ->
  spins elapsed T w env w' rest ->
  exists mid plast cur,
    env = mid ++ plast :: rest
    /\ T <= elapsed cur
    /\ ovf cur * ARR (TIM1 w) + cnt cur
       = stamp (advance (duration mid + d_ovf plast + d_cnt plast) w).
Proof.
  intros Ho Hb H. revert Ho Hb.
  induction H as [w env cur w' rest Hs Hge
                 |w env cur w1 env1 w' rest Hs Hlt _ IH]; intros Ho Hb.
  - destruct (sample_stamp _ _ _ _ _ Ho Hb Hs) as (used & p & E & S & _).
    now exists used, p, cur.
  - destruct (sample_stamp _ _ _ _ _ Ho Hb Hs) as (used & p & E & _ & W1).
    assert (Hb1 : brisk env1).
    { rewrite E in Hb. apply brisk_app in Hb as (_ & Hb).
      intros q Hq. apply Hb. now right. }
    assert (Ho1 : uint32 (overflow_counter (glob w1)))
      by (rewrite W1; now repeat apply advance_overflow_range).
    destruct (IH Ho1 Hb1) as (mid & plast & c & E1 & Hge & S).
    exists (used ++ p :: mid), plast, c.
    split; [rewrite E, E1, <- app_assoc; reflexivity|]. split; [exact Hge|].
    rewrite (fr_ARR _ _ (atomic_read_frame _ _ _ _ _ Hs)) in S.
    rewrite S, W1, <- !advance_add. f_equal. f_equal.
    rewrite duration_app. simpl. unfold span. lia.
Qed.

Lemma spins_elapse elapsed T w env w' rest :
  spins elapsed T w env w' rest -> only_time_passed w env w' rest.
Proof.
  unfold only_time_passed.
  induction 1 as [w env cur w' rest Hs _
                 |w env cur w1 env1 w' rest Hs _ _ IH].
  - eapply atomic_read_elapse, Hs.
  - destruct (atomic_read_elapse _ _ _ _ _ Hs) as (used1 & -> & ->).
    destruct IH as (used2 & -> & ->).
    exists (used1 ++ used2). now rewrite <- app_assoc, elapse_app.
Qed.

Lemma DelayUS_32_ticks_frame g1 g2 us :
  clock_freq g1 = clock_freq g2 -> optim g1 = optim g2 ->
  DelayUS_32_ticks g1 us = DelayUS_32_ticks g2 us.
Proof. unfold DelayUS_32_ticks. now intros -> ->. Qed.

(** The three full delays share one shape. *)
Lemma delay_shape w env :
  (forall us, TimerLib_DelayUS us w env
              = (start ← atomic_read;
                 g ← get_glob;
                 spin_until (fun cur => delay_elapsed (arr_value g) start cur
                                        >=? DelayUS_ticks g us)) w env)
  /\ (forall ns, TimerLib_DelayNS ns w env
                 = (start ← atomic_read;
                    g ← get_glob;
                    spin_until (fun cur => delay_elapsed (arr_value g) start cur
                                           >=? DelayNS_ticks g ns)) w env)
  /\ (forall us, TimerLib_DelayUS_32 us w env
                 = (start ← atomic_read;
                    g ← get_glob;
                    spin_until (fun cur => delay_elapsed (arr_value g) start cur
                                           >=? DelayUS_32_ticks g us)) w env).
Proof. repeat split. Qed.

Lemma delay_waited (ticks_of : Globals -> Z) w env w' rest :
  hw_ok w ->
  uint32 (overflow_counter (glob w)) ->
  reload_matches w ->
  brisk env ->
  (forall w1, env_frame w w1 -> ticks_of (glob w1) = ticks_of (glob w)) ->
  (start ← atomic_read;
   g ← get_glob;
   spin_until (fun cur => delay_elapsed (arr_value g) start cur >=? ticks_of g))
    w env = Ret (tt, w', rest) ->
  waited w env rest (ticks_of (glob w)).
Proof.
  intros Hok Ho Hm Hb Hfr H.
  apply delay_run in H as (start & w1 & env1 & Hs & Hsp).
  pose proof (atomic_read_frame _ _ _ _ _ Hs) as Fr.
  rewrite (Hfr _ Fr) in Hsp.
  destruct (sample_stamp _ _ _ _ _ Ho Hb Hs) as (used0 & p0 & E0 & S0 & W1).
  set (n0 := (duration used0 + d_ovf p0 + d_cnt p0)%N) in *.
  assert (Hb1 : brisk env1).
  { rewrite E0 in Hb. apply brisk_app in Hb as (_ & Hb).
    intros q Hq. apply Hb. now right. }
  assert (Ho1 : uint32 (overflow_counter (glob w1)))
    by (rewrite W1; now repeat apply advance_overflow_range).
  destruct (spins_stamp _ _ _ _ _ _ Ho1 Hb1 Hsp)
    as (mid & plast & cur & E1 & Hge & S1).
  exists start, w1, env1, used0, p0, mid, plast. split; [exact Hs|].
  split; [exact E0|]. split; [exact E1|].
  rewrite (fr_ARR _ _ Fr) in S1. rewrite Hm in Hge.
  rewrite (ticks_between_stamps _ _ _
             (d_chk p0 + duration mid + d_ovf plast + d_cnt plast)
             _ _ S0 S1) in Hge.
  - eapply Z.le_trans; [exact Hge|]. unfold wrap32.
    apply Z.mod_le; lia.
  - set (m := (duration mid + d_ovf plast + d_cnt plast)%N).
    assert (Hok1 : hw_ok w1) by (rewrite W1; now repeat apply advance_ok).
    rewrite (stamp_advance m w1 Hok1), W1.
    rewrite (stamp_advance (d_chk p0) _ (advance_ok n0 w Hok)).
    replace (Z.of_N (d_chk p0 + duration mid + d_ovf plast + d_cnt plast))
      with (Z.of_N (d_chk p0) + Z.of_N m) by lia.
    rewrite Z.add_assoc. reflexivity.
Qed.

(** X3.  In a library configured with the timer's reload value (and with
    the count below it, and fewer than 2^32 ticks within any one sampling
    attempt), [TimerLib_DelayUS], [TimerLib_DelayNS] and
    [TimerLib_DelayUS_32] return only after at least their target number
    of timer ticks has passed between the read of the counter in the
    attempt that gave them their baseline and the read of the counter in
    the attempt on whose sample they returned. *)
Theorem delay_lasts_target w env w' rest :
  hw_ok w ->
  uint32 (overflow_counter (glob w)) ->
  reload_matches w ->
  brisk env ->
  (forall us, TimerLib_DelayUS us w env = Ret (tt, w', rest) ->
              waited w env rest (DelayUS_ticks (glob w) us))
  /\ (forall ns, TimerLib_DelayNS ns w env = Ret (tt, w', rest) ->
                 waited w env rest (DelayNS_ticks (glob w) ns))
  /\ (forall us, TimerLib_DelayUS_32 us w env = Ret (tt, w', rest) ->
                 waited w env rest (DelayUS_32_ticks (glob w) us)).
Proof.
  intros Hok Ho Hm Hb.
  destruct (delay_shape w env) as (Eus & Ens & E32).
  split; [|split].
  - intros us H. rewrite Eus in H.
    apply (delay_waited (fun g => DelayUS_ticks g us)) in H; auto.
    intros w1 [_ _ Fc Fo _]. now apply DelayUS_ticks_frame.
  - intros ns H. rewrite Ens in H.
    apply (delay_waited (fun g => DelayNS_ticks g ns)) in H; auto.
    intros w1 [_ _ Fc _ _]. now apply DelayNS_ticks_frame.
  - intros us H. rewrite E32 in H.
    apply (delay_waited (fun g => DelayUS_32_ticks g us)) in H; auto.
    intros w1 [_ _ Fc Fo _]. now apply DelayUS_32_ticks_frame.
Qed.

Lemma delay_lasts_target_witness :
  waited world_8MHz [still; mkProbe 7 0 0; mkProbe 1 0 0; still] [still]
         (DelayUS_ticks (glob world_8MHz) 1).
Proof.
  assert (Hok : hw_ok world_8MHz) by (unfold hw_ok; simpl; lia).
  assert (Ho : uint32 (overflow_counter (glob world_8MHz)))
    by (unfold uint32; simpl; lia).
  assert (Hb : brisk [still; mkProbe 7 0 0; mkProbe 1 0 0; still])
    by (intros p [<-|[<-|[<-|[<-|[]]]]]; simpl; lia).
  refine (proj1 (delay_lasts_target world_8MHz
                   [still; mkProbe 7 0 0; mkProbe 1 0 0; still]
                   (advance 8 world_8MHz) [still] Hok Ho eq_refl Hb) 1 _).
  vm_compute. reflexivity.
Defined.

(** ** What delays leave behind *)

(** An outcome that is no fault and, when it is a return, changed nothing
    but let time pass. *)
Definition harmless {A : Type} (w : World) (env : list probe)
    (r : result (A * World * list probe)) : Prop :=
  (forall e, r <> Fault e)
  /\ forall a w' rest,
       r = Ret (a, w', rest) ->
       only_time_passed w env w' rest /\ env_frame w w'.

Lemma only_time_passed_trans w env w1 env1 w2 env2 :
  only_time_passed w env w1 env1 ->
  only_time_passed w1 env1 w2 env2 ->
  only_time_passed w env w2 env2.
Proof.
  intros (u1 & -> & ->) (u2 & -> & ->). exists (u1 ++ u2).
  now rewrite <- app_assoc, elapse_app.
Qed.

Lemma only_time_passed_frame w env w' rest :
  only_time_passed w env w' rest -> env_frame w w'.
Proof. intros (used & _ & ->). apply elapse_frame. Qed.

Lemma spin_until_harmless elapsed T w env :
  harmless w env (spin_until (fun cur => elapsed cur >=? T) w env).
Proof.
  split.
  - intros e. apply (spin_until_no_fault elapsed T).
  - intros [] w' rest H. apply (spin_until_spins elapsed T) in H.
    apply spins_elapse in H. split; [exact H|].
    eapply only_time_passed_frame, H.
Qed.

Lemma delay_harmless (ticks_of : Globals -> Z) w env :
  harmless w env
    ((start ← atomic_read;
      g ← get_glob;
      spin_until (fun cur => delay_elapsed (arr_value g) start cur
                             >=? ticks_of g)) w env).
Proof.
  unfold mbind at 1. unfold M_bind.
  destruct (atomic_read w env) as [[[start w1] env1]|e|] eqn:Hs.
  - unfold mbind, M_bind, get_glob.
    destruct (spin_until_harmless
                (delay_elapsed (arr_value (glob w1)) start)
                (ticks_of (glob w1)) w1 env1) as (Hnf & Hret).
    pose proof (atomic_read_elapse _ _ _ _ _ Hs) as Hp.
    split; [exact Hnf|]. intros a w' rest H.
    destruct (Hret a w' rest H) as (Hq & _).
    pose proof (only_time_passed_trans _ _ _ _ _ _ Hp Hq) as Ht.
    split; [exact Ht | eapply only_time_passed_frame, Ht].
  - now apply atomic_read_no_fault in Hs.
  - split; [discriminate | discriminate].
Qed.

(** X4.  No delay routine faults, and none writes anything: whenever
    [TimerLib_DelayUS], [TimerLib_DelayNS], [TimerLib_DelayUS_32] or
    [TimerLib_DelayUS_32Short] returns, the world is the one the passage
    of time alone produces, with every handle and the whole configuration
    as before. *)
Theorem delays_only_wait w env :
  (forall us, harmless w env (TimerLib_DelayUS us w env))
  /\ (forall ns, harmless w env (TimerLib_DelayNS ns w env))
  /\ (forall us, harmless w env (TimerLib_DelayUS_32 us w env))
  /\ (forall us, harmless w env (TimerLib_DelayUS_32Short us w env)).
Proof.
  destruct (delay_shape w env) as (Eus & Ens & E32).
  split; [|split; [|split]].
  - intros us. rewrite Eus. apply (delay_harmless (fun g => DelayUS_ticks g us)).
  - intros ns. rewrite Ens. apply (delay_harmless (fun g => DelayNS_ticks g ns)).
  - intros us. rewrite E32.
    apply (delay_harmless (fun g => DelayUS_32_ticks g us)).
  - intros us. unfold TimerLib_DelayUS_32Short, mbind at 1. unfold M_bind.
    destruct (atomic_read w env) as [[[start w1] env1]|e|] eqn:Hs.
    + pose proof (atomic_read_elapse _ _ _ _ _ Hs) as Hp.
      unfold mbind at 1. unfold M_bind, get_glob.
      destruct (negb (short_delay_ok (glob w1) us)).
      * split; [discriminate|]. intros a w' rest [= <- <- <-].
        split; [exact Hp | eapply only_time_passed_frame, Hp].
      * cbv zeta. unfold mbind, M_bind.
        destruct (spin_until_harmless
                    (short_elapsed (arr_value (glob w1)) start)
                    (wrap32 (us * us_per_tick (optim (glob w1)))) w1 env1)
          as (Hnf & Hret).
        destruct (spin_until _ w1 env1) as [[[[] w2] env2]|e|].
        -- split; [discriminate|]. intros a w' rest [= <- <- <-].
           destruct (Hret tt w2 env2 eq_refl) as (Hq & _).
           pose proof (only_time_passed_trans _ _ _ _ _ _ Hp Hq) as Ht.
           split; [exact Ht | eapply only_time_passed_frame, Ht].
        -- exfalso. now apply (Hnf e).
        -- split; discriminate.
    + now apply atomic_read_no_fault in Hs.
    + split; discriminate.
Qed.

(** ** Targets below one tick and beyond 32 bits *)

Lemma delay_zero_target (ticks_of : Globals -> Z) w env s0 w1 env1 s1 w2 env2 :
  atomic_read w env = Ret (s0, w1, env1) ->
  atomic_read w1 env1 = Ret (s1, w2, env2) ->
  ticks_of (glob w1) <= 0 ->
  (start ← atomic_read;
   g ← get_glob;
   spin_until (fun cur => delay_elapsed (arr_value g) start cur >=? ticks_of g))
    w env = Ret (tt, w2, env2).
Proof.
  intros H0 H1 Hz. rewrite (bind_Ret _ _ _ _ _ _ _ H0).
  unfold mbind, M_bind, get_glob.
  apply (spin_until_spins (delay_elapsed (arr_value (glob w1)) s0)).
  eapply spins_hit; [exact H1|].
  rewrite delay_elapsed_spec, ticks_between_spec.
  pose proof (wrap32_range
                (ElapsedTicks_spec (arr_value (glob w1))
                   (mkHandle (cnt s0) (ovf s0)) s1)) as Hr.
  unfold uint32 in Hr. lia.
Qed.

(** X5.  A request that amounts to less than one tick is no delay at all:
    when [ns * clock_freq < 1000000000], [TimerLib_DelayNS] returns on the
    first sample of its wait loop, whatever that sample shows; so does
    [TimerLib_DelayUS] on the scaled path when
    [us * clock_freq < 1000000]. *)
Theorem subtick_delay_returns_at_once w env s0 w1 env1 s1 w2 env2 :
  atomic_read w env = Ret (s0, w1, env1) ->
  atomic_read w1 env1 = Ret (s1, w2, env2) ->
  (forall ns, 0 <= ns * clock_freq (glob w) < 1000000000 ->
              TimerLib_DelayNS ns w env = Ret (tt, w2, env2))
  /\ (forall us, us_optimized (optim (glob w)) = false ->
                 0 <= us * clock_freq (glob w) < 1000000 ->
                 TimerLib_DelayUS us w env = Ret (tt, w2, env2)).
Proof.
  intros H0 H1.
  destruct (atomic_read_frame _ _ _ _ _ H0) as [_ _ Fc Fo _].
  destruct (delay_shape w env) as (Eus & Ens & _).
  split.
  - intros ns Hns. rewrite Ens.
    apply (delay_zero_target (fun g => DelayNS_ticks g ns) _ _ _ _ _ _ _ _ H0 H1).
    cbv beta. unfold DelayNS_ticks. rewrite Fc.
    rewrite wrap64_small by (unfold uint64; lia).
    rewrite Z.div_small by lia. lia.
  - intros us Hsc Hus. rewrite Eus.
    apply (delay_zero_target (fun g => DelayUS_ticks g us) _ _ _ _ _ _ _ _ H0 H1).
    cbv beta. unfold DelayUS_ticks. rewrite Fc, Fo, Hsc.
    rewrite wrap64_small by (unfold uint64; lia).
    rewrite Z.div_small by lia. lia.
Qed.

Lemma subtick_delay_returns_at_once_witness :
  TimerLib_DelayNS 13 world_5s [still; still; still]
  = Ret (tt, world_5s, [still]).
Proof.
  refine (proj1 (subtick_delay_returns_at_once world_5s [still; still; still]
                   (mkSample 10752 5493) world_5s [still; still]
                   (mkSample 10752 5493) world_5s [still]
                   eq_refl eq_refl) 13 _).
  simpl. lia.
Defined.

(** X6.  A target of 2^32 ticks or more is never reached, because the
    elapsed count is a 32-bit value: [TimerLib_DelayUS] and
    [TimerLib_DelayNS] then never return, whatever the timer does. *)
Theorem delay_beyond_32_bits_spins w env :
  (forall us, 2 ^ 32 <= DelayUS_ticks (glob w) us ->
              TimerLib_DelayUS us w env = Spin)
  /\ (forall ns, 2 ^ 32 <= DelayNS_ticks (glob w) ns ->
                 TimerLib_DelayNS ns w env = Spin).
Proof.
  destruct (delay_shape w env) as (Eus & Ens & _).
  assert (Hgen : forall ticks_of : Globals -> Z,
    (forall w1, env_frame w w1 -> ticks_of (glob w1) = ticks_of (glob w)) ->
    2 ^ 32 <= ticks_of (glob w) ->
    (start ← atomic_read;
     g ← get_glob;
     spin_until (fun cur => delay_elapsed (arr_value g) start cur
                            >=? ticks_of g)) w env = Spin).
  { intros ticks_of Hfr Hbig.
    destruct (delay_harmless ticks_of w env) as (Hnf & _).
    match goal with
    | |- ?r = Spin => destruct r as [[[[] w'] rest]|e|] eqn:H
    end.
    - exfalso. apply delay_run in H as (start & w1 & env1 & Hs & Hsp).
      apply spins_below_2pow32 in Hsp.
      rewrite (Hfr _ (atomic_read_frame _ _ _ _ _ Hs)) in Hsp. lia.
    - exfalso. now apply (Hnf e).
    - reflexivity. }
  split.
  - intros us Hbig. rewrite Eus.
    apply (Hgen (fun g => DelayUS_ticks g us)); [|exact Hbig].
    intros w1 [_ _ Fc Fo _]. now apply DelayUS_ticks_frame.
  - intros ns Hbig. rewrite Ens.
    apply (Hgen (fun g => DelayNS_ticks g ns)); [|exact Hbig].
    intros w1 [_ _ Fc _ _]. now apply DelayNS_ticks_frame.
Qed.

Lemma delay_beyond_32_bits_spins_witness :
  TimerLib_DelayUS 4294967295 world_151d
    [still; mkProbe 65535 0 0; mkProbe 4294967295 0 0]
  = Spin.
Proof.
  refine (proj1 (delay_beyond_32_bits_spins world_151d
                   [still; mkProbe 65535 0 0; mkProbe 4294967295 0 0])
            4294967295 _).
  vm_compute. intros H. discriminate H.
Defined.

(** ** Successive interval queries *)

(** X7.  Nothing is lost between two successive queries on one handle:
    their results add up, modulo 2^32, to what a single query taking the
    second sample would have returned for the original baseline. *)
Theorem consecutive_queries_add htim base w env v1 w1 env1 v2 w2 env2 :
  mem w !! htim = Some base ->
  calculate_ticks htim w env = Ret (v1, w1, env1) ->
  calculate_ticks htim w1 env1 = Ret (v2, w2, env2) ->
  exists cur2 wb,
    atomic_read w1 env1 = Ret (cur2, wb, env2)
    /\ mem w2 !! htim = Some (mkHandle (cnt cur2) (ovf cur2))
    /\ wrap32 (v1 + v2) = ticks_between (arr_value (glob w)) base cur2.
Proof.
  intros Hm H1 H2.
  destruct (calculate_ticks_glob _ _ _ _ _ _ H1) as (_ & _ & Ea).
  apply calculate_ticks_inv in H1 as (b1 & cur1 & wa & Hb1 & Hs1 & -> & ->).
  apply calculate_ticks_inv in H2 as (b2 & cur2 & wb & Hb2 & Hs2 & -> & ->).
  rewrite Hm in Hb1. injection Hb1 as <-.
  simpl in Hb2. rewrite lookup_insert_eq in Hb2. injection Hb2 as <-.
  exists cur2, wb. split; [exact Hs2|]. split; [apply lookup_insert_eq|].
  rewrite Ea, !ticks_between_spec, !ElapsedTicks_spec_flat. simpl.
  wrap32_ring.
Qed.

Lemma consecutive_queries_add_witness :
  exists cur2 wb,
    atomic_read (store_handle 1 (mkHandle 10752 5493) world_5s) [mkProbe 100 0 0]
    = Ret (cur2, wb, [])
    /\ wrap32 (360000000 + 100)
       = ticks_between 65536 (mkHandle 0 0) cur2.
Proof.
  destruct (consecutive_queries_add 1 (mkHandle 0 0) world_5s
              [still; mkProbe 100 0 0]
              360000000 (store_handle 1 (mkHandle 10752 5493) world_5s)
              [mkProbe 100 0 0]
              100 (store_handle 1 (mkHandle 10852 5493)
                     (advance 100 world_5s)) [])
    as (cur2 & wb & Hs & _ & Hsum).
  - reflexivity.
  - vm_compute. reflexivity.
  - vm_compute. reflexivity.
  - exists cur2, wb. split; [exact Hs | exact Hsum].
Defined.

(** ** The single-wrap formula *)

#[local] Instance cong32_wrap32 : Proper (cong32 ==> cong32) wrap32.
Proof. intros a b H. now rewrite !cong32_wrap. Qed.

(** X8.  The elapsed formula of [TimerLib_DelayUS_32Short] against the
    one of [TimerLib_DelayUS], for a sample whose overflow count is the
    baseline's plus [k] as plain integers, that is, with no wrap-around
    2^32 - 1 -> 0 of the 32-bit overflow counter in between: with
    [k = 0] or [k = 1] the two agree; with [k >= 1] the single-wrap
    formula falls short by [k - 1] reload values (modulo 2^32). *)
Theorem short_elapsed_vs_full arr start cur k :
  ovf cur = ovf start + k ->
  (k = 0 \/ k = 1 -> short_elapsed arr start cur = delay_elapsed arr start cur)
  /\ (1 <= k ->
      short_elapsed arr start cur
      = wrap32 (delay_elapsed arr start cur - (k - 1) * arr)).
Proof.
  intros Hk. unfold short_elapsed, delay_elapsed. rewrite Hk. split.
  - intros [-> | ->].
    + rewrite Z.add_0_r, Z.eqb_refl.
      destruct (Z.gtb_spec (ovf start) (ovf start)); [lia | reflexivity].
    + destruct (Z.gtb_spec (ovf start + 1) (ovf start)); [|lia].
      destruct (Z.eqb_spec (ovf start + 1) (ovf start)); [lia|]. wrap32_ring.
  - intros Hk1.
    destruct (Z.gtb_spec (ovf start + k) (ovf start)); [|lia].
    destruct (Z.eqb_spec (ovf start + k) (ovf start)); [lia|]. wrap32_ring.
Qed.

Lemma short_elapsed_vs_full_witness :
  short_elapsed 8000 (mkSample 7000 4) (mkSample 10 6)
  = wrap32 (delay_elapsed 8000 (mkSample 7000 4) (mkSample 10 6)
            - (2 - 1) * 8000).
Proof.
  refine (proj2 (short_elapsed_vs_full 8000 (mkSample 7000 4) (mkSample 10 6)
                   2 eq_refl) _).
  lia.
Defined.

(** X9.  After [TimerLib_GlobalInit arr clk_freq], once the baseline
    sample is taken, [TimerLib_DelayUS_32Short us] declines with -1
    exactly when it is not the case that the frequency is a whole number
    of MHz, [us < 1000] and [clk_freq < 2000 * arr]. *)
Theorem short_delay_supported arr clk_freq us w0 env0 w env start w1 rest :
  0 < arr ->
  TimerLib_GlobalInit arr clk_freq w0 env0 = Ret (tt, w, env0) ->
  atomic_read w env = Ret (start, w1, rest) ->
  TimerLib_DelayUS_32Short us w env = Ret (-1, w1, rest)
  <-> ~ (clk_freq mod 1000000 = 0 /\ us < 1000 /\ clk_freq < 2000 * arr).
Proof.
  intros Harr Hinit Hs. apply GlobalInit_inv in Hinit as (_ & -> & _).
  destruct (atomic_read_frame _ _ _ _ _ Hs) as [_ _ _ Fo _].
  assert (Hok : short_delay_ok (glob w1) us = true
                <-> clk_freq mod 1000000 = 0 /\ us < 1000
                    /\ clk_freq < 2000 * arr).
  { rewrite short_delay_ok_spec, Fo. simpl. rewrite Z.eqb_eq.
    assert (Hd : clk_freq / arr / 1000 <= 1 <-> clk_freq < 2000 * arr).
    { split; intros H.
      - destruct (Z.lt_ge_cases clk_freq (2000 * arr)) as [|Hge];
          [assumption|].
        assert (H1 : 2000 <= clk_freq / arr)
          by (apply Z.div_le_lower_bound; lia).
        assert (H2 : 2 <= clk_freq / arr / 1000)
          by (apply Z.div_le_lower_bound; lia).
        lia.
      - assert (H1 : clk_freq / arr < 2000)
          by (apply Z.div_lt_upper_bound; lia).
        assert (H2 : clk_freq / arr / 1000 < 2)
          by (apply Z.div_lt_upper_bound; lia).
        lia. }
    tauto. }
  unfold TimerLib_DelayUS_32Short. rewrite (bind_Ret _ _ _ _ _ _ _ Hs).
  unfold mbind at 1. unfold M_bind at 1. unfold get_glob.
  destruct (short_delay_ok (glob w1) us) eqn:E; simpl.
  - split; [|intros Hno; exfalso; apply Hno, Hok; reflexivity].
    unfold mbind, M_bind.
    destruct (spin_until _ w1 rest) as [[[[] w2] env2]| |];
      unfold mret, M_ret; discriminate.
  - split; [|reflexivity]. intros _ Hyes. apply Hok in Hyes. discriminate.
Qed.

Lemma short_delay_supported_witness :
  TimerLib_DelayUS_32Short 1500 world_8MHz [still] = Ret (-1, world_8MHz, []).
Proof.
  refine (proj2 (short_delay_supported 8000 8000000 1500 (boot 8000) []
                   world_8MHz [still] (mkSample 0 0) world_8MHz [] _ _ _) _).
  - lia.
  - reflexivity.
  - reflexivity.
  - intros (_ & H & _). lia.
Defined.

(** ** A stale [ns_per_tick] *)

Lemma hw_tick_stale v w :
  with_stale_ns v (hw_tick w) = hw_tick (with_stale_ns v w).
Proof. unfold hw_tick. simpl. now destruct (_ <? _). Qed.

Lemma advance_stale v n w :
  with_stale_ns v (advance n w) = advance n (with_stale_ns v w).
Proof. unfold advance. apply N.iter_swap_gen. intros a. apply hw_tick_stale. Qed.

Lemma atomic_read_stale v env w :
  atomic_read (with_stale_ns v w) env
  = on_world (with_stale_ns v) (atomic_read w env).
Proof.
  unfold atomic_read. revert w. induction env as [|p env IH]; intros w; simpl.
  - reflexivity.
  - rewrite <- !advance_stale. simpl.
    destruct (negb _); [apply IH | reflexivity].
Qed.

Lemma calculate_ticks_stale v htim w env :
  calculate_ticks htim (with_stale_ns v w) env
  = on_world (with_stale_ns v) (calculate_ticks htim w env).
Proof.
  unfold calculate_ticks, mbind at 1 5. unfold M_bind.
  rewrite atomic_read_stale.
  destruct (atomic_read w env) as [[[cur w1] env1]| |]; simpl; try reflexivity.
  unfold mbind, M_bind, load_handle, get_glob, write_handle, mret, M_ret.
  simpl. destruct (mem w1 !! htim); reflexivity.
Qed.

(** X10.  [TimerLib_GlobalInit] leaves [ns_per_tick] as it was when the
    frequency is not a whole number of GHz; the value is dead: while
    [ns_optimized] is false, the nanosecond getter and the
    double-precision interval getter return the same result whatever
    [ns_per_tick] holds. *)
Theorem stale_ns_per_tick_is_dead v htim w env :
  ns_optimized (optim (glob w)) = false ->
  (forall arr clk_freq w0 env0 w' env',
      clk_freq mod 1000000000 <> 0 ->
      TimerLib_GlobalInit arr clk_freq w0 env0 = Ret (tt, w', env') ->
      ns_optimized (optim (glob w')) = false
      /\ ns_per_tick (optim (glob w')) = ns_per_tick (optim (glob w0)))
  /\ TimerLib_GetInterval_ns htim (with_stale_ns v w) env
     = on_world (with_stale_ns v) (TimerLib_GetInterval_ns htim w env)
  /\ TimerLib_GetInterval_df htim (with_stale_ns v w) env
     = on_world (with_stale_ns v) (TimerLib_GetInterval_df htim w env).
Proof.
  intros Hns. split.
  { intros arr clk_freq w0 env0 w' env' Hclk H.
    apply GlobalInit_inv in H as (_ & -> & _). simpl.
    destruct (Z.eqb_spec (clk_freq mod 1000000000) 0); [contradiction|].
    split; reflexivity. }
  assert (Hkeep : forall t w1 r,
             calculate_ticks htim w env = Ret (t, w1, r) ->
             ns_optimized (optim (glob w1)) = false).
  { intros t w1 r H.
    destruct (calculate_ticks_glob _ _ _ _ _ _ H) as (_ & -> & _). exact Hns. }
  split.
  - unfold TimerLib_GetInterval_ns, mbind at 1 4. unfold M_bind.
    rewrite calculate_ticks_stale.
    destruct (calculate_ticks htim w env) as [[[t w1] r]| |] eqn:H;
      simpl; try reflexivity.
    unfold mbind, M_bind, get_glob. simpl. rewrite (Hkeep _ _ _ eq_refl).
    unfold udiv, raise, mret, M_ret. simpl.
    destruct (clock_freq (glob w1) =? 0); reflexivity.
  - unfold TimerLib_GetInterval_df, mbind at 1 5. unfold M_bind.
    rewrite calculate_ticks_stale.
    destruct (calculate_ticks htim w env) as [[[t w1] r]| |] eqn:H;
      simpl; try reflexivity.
    unfold mbind, M_bind, get_glob. simpl. rewrite (Hkeep _ _ _ eq_refl).
    unfold udiv, raise, mret, M_ret. simpl.
    destruct (clock_freq (glob w1) =? 0); reflexivity.
Qed.

Lemma stale_ns_per_tick_is_dead_witness :
  TimerLib_GetInterval_ns 1 (with_stale_ns 4 world_5s) [still]
  = on_world (with_stale_ns 4) (TimerLib_GetInterval_ns 1 world_5s [still]).
Proof.
  exact (proj1 (proj2 (stale_ns_per_tick_is_dead 4 1 world_5s [still]
                         eq_refl))).
Defined.

(** ** Overflow notifications *)

(** X11.  [n] overflow notifications add [n] to the overflow counter
    modulo 2^32 and touch nothing else; the counter does not saturate, and
    2^32 notifications bring it back to where it was. *)
Theorem notify_counts n w :
  uint32 (overflow_counter (glob w)) ->
  overflow_counter (glob (notify n w))
  = wrap32 (overflow_counter (glob w) + Z.of_N n)
  /\ env_frame w (notify n w)
  /\ TIM1 (notify n w) = TIM1 w
  /\ (n = (2 ^ 32)%N -> notify n w = w).
Proof.
  intros Ho.
  assert (H : overflow_counter (glob (notify n w))
              = wrap32 (overflow_counter (glob w) + Z.of_N n)
              /\ env_frame w (notify n w)
              /\ TIM1 (notify n w) = TIM1 w).
  { unfold notify. induction n as [|n IH] using N.peano_ind.
    - simpl. rewrite Z.add_0_r, wrap32_small by exact Ho.
      split; [reflexivity|]. split; [apply env_frame_refl | reflexivity].
    - rewrite N.iter_succ. destruct IH as (IH & [Fm Fa Fc Fo FA] & Ft).
      revert IH Fm Fa Fc Fo FA Ft.
      generalize (N.iter n TimerLib_HandleUpdateIRQ w).
      intros v IH Fm Fa Fc Fo FA Ft.
      unfold TimerLib_HandleUpdateIRQ. simpl. rewrite IH.
      split; [|split; [now split | exact Ft]].
      rewrite N2Z.inj_succ.
      replace (Z.succ (Z.of_N n)) with (Z.of_N n + 1) by lia.
      wrap32_ring. }
  destruct H as (Hc & Hf & Ht). repeat split; try apply Hf; auto.
  intros ->. destruct Hf as [Fm Fa Fc Fo _].
  assert (E : overflow_counter (glob (notify (2 ^ 32) w))
              = overflow_counter (glob w)).
  { rewrite Hc. unfold wrap32.
    change (Z.of_N (2 ^ 32)) with (1 * 2 ^ 32).
    rewrite Z_mod_plus_full. apply Z.mod_small, Ho. }
  revert Fm Fa Fc Fo Ht E. generalize (notify (2 ^ 32) w). intros w'.
  destruct w' as [[a c o op] t m], w as [[a0 c0 o0 op0] t0 m0]. simpl.
  now intros -> -> -> -> -> ->.
Qed.

Lemma notify_counts_witness :
  overflow_counter (glob (notify 3 (with_glob
                                      (with_overflow_counter 4294967295
                                         (glob world_8MHz)) world_8MHz)))
  = 2.
Proof.
  refine (eq_trans (proj1 (notify_counts 3 (with_glob
                             (with_overflow_counter 4294967295
                                (glob world_8MHz)) world_8MHz) _)) _).
  - unfold uint32. simpl. lia.
  - reflexivity.
Defined.

(** ** Liveness of the sampling loop *)

Lemma atomic_read_returns_witness :
  exists s w' rest,
    atomic_read world_8MHz [mkProbe 7999 1 0; mkProbe 3 0 0; still]
    = Ret (s, w', rest).
Proof.
  apply (atomic_read_returns _ world_8MHz (mkProbe 3 0 0)).
  - simpl. right. left. reflexivity.
  - split; reflexivity.
Defined.

(** ** Delay and measurement round trip *)

(** X13.  What [TimerLib_GetInterval_us] reports for an interval of
    exactly the target ticks of [TimerLib_DelayUS us]: on the exact path
    it is [us] itself (as long as the target fits in 32 bits), on the
    scaled path it is never more than [us]. *)
Theorem delay_target_reads_back us htim w env w1 rest :
  divisors_ok (glob w) ->
  uint32 us ->
  uint32 (clock_freq (glob w)) ->
  calculate_ticks htim w env = Ret (DelayUS_ticks (glob w) us, w1, rest) ->
  (us_optimized (optim (glob w)) = true ->
   uint32 (us * us_per_tick (optim (glob w))) ->
   TimerLib_GetInterval_us htim w env = Ret (us, w1, rest))
  /\ (us_optimized (optim (glob w)) = false ->
      exists r, TimerLib_GetInterval_us htim w env = Ret (r, w1, rest)
                /\ 0 <= r <= us).
Proof.
  intros Hd Hus Hclk H. pose proof Hd as (Hpos & Hupt & _).
  rewrite (GetInterval_us_run _ _ _ _ _ _ Hd H). unfold DelayUS_ticks.
  split.
  - intros E Hfit. rewrite E. specialize (Hupt E).
    rewrite wrap32_small by exact Hfit.
    now rewrite Z.div_mul by lia.
  - intros E. rewrite E. eexists. split; [reflexivity|].
    unfold uint32 in *.
    rewrite wrap64_small by (unfold uint64; nia).
    set (f := clock_freq (glob w)) in *.
    assert (Hq : 0 <= us * f / 1000000) by (apply Z.div_pos; nia).
    assert (Hq2 : us * f / 1000000 * 1000000 <= us * f).
    { rewrite Z.mul_comm. apply Z.mul_div_le. lia. }
    assert (Hr : 0 <= us * f / 1000000 * 1000000 / f <= us).
    { split; [apply Z.div_pos; lia|].
      apply Z.div_le_upper_bound; [lia|]. lia. }
    rewrite wrap32_small by (unfold uint32; lia). exact Hr.
Qed.

Lemma delay_target_reads_back_witness :
  TimerLib_GetInterval_us 1 (store_handle 1 (mkHandle 0 0) world_8MHz)
    [mkProbe 80 0 0]
  = Ret (10,
         store_handle 1 (mkHandle 80 0)
           (advance 80 (store_handle 1 (mkHandle 0 0) world_8MHz)), []).
Proof.
  assert (Hd : divisors_ok (glob (store_handle 1 (mkHandle 0 0) world_8MHz))).
  { unfold divisors_ok. split; [vm_compute; reflexivity|]. split.
    - intros _. vm_compute. intros H. discriminate H.
    - intros H. vm_compute in H. discriminate H. }
  assert (Hus : uint32 10) by (unfold uint32; lia).
  assert (Hclk : uint32 (clock_freq
                           (glob (store_handle 1 (mkHandle 0 0) world_8MHz))))
    by (unfold uint32; vm_compute; split; [intros H; discriminate H
                                          | reflexivity]).
  refine (proj1 (delay_target_reads_back 10 1
                   (store_handle 1 (mkHandle 0 0) world_8MHz)
                   [mkProbe 80 0 0] _ [] Hd Hus Hclk _) eq_refl _).
  - vm_compute. reflexivity.
  - unfold uint32. vm_compute. split; [intros H; discriminate H | reflexivity].
Defined.

(** ** The short delay in real ticks *)

Lemma wrap32_le x : 0 <= x -> wrap32 x <= x.
Proof. intros H. unfold wrap32. apply Z.mod_le; lia. Qed.

Lemma short_elapsed_le_real A s0 s1 n :
  0 <= cnt s0 < A -> 0 <= cnt s1 < A -> 0 <= n ->
  ovf s1 * A + cnt s1 = ovf s0 * A + cnt s0 + n ->
  short_elapsed A s0 s1 <= n.
Proof.
  intros H0 H1 Hn E. unfold short_elapsed.
  destruct (Z.gtb_spec (ovf s1) (ovf s0)) as [Hgt|Hle].
  - replace (wrap32 (wrap32 (A - cnt s0) + cnt s1))
      with (wrap32 (A - cnt s0 + cnt s1)) by wrap32_ring.
    eapply Z.le_trans; [apply wrap32_le; lia|]. nia.
  - assert (ovf s1 = ovf s0) by nia.
    eapply Z.le_trans; [apply wrap32_le; nia|]. nia.
Qed.

(** The sample on which a wait loop leaves, and its instant. *)
Lemma spins_instant elapsed T w env w' rest :
  uint32 (overflow_counter (glob w)) ->
  brisk env ->
  spins elapsed T w env w' rest ->
  exists mid plast cur,
    env = mid ++ plast :: rest
    /\ T <= elapsed cur
    /\ let i := advance (duration mid + d_ovf plast + d_cnt plast) w in
       cnt cur = CNT (TIM1 i) /\ ovf cur = overflow_counter (glob i).
Proof.
  intros Ho Hb H. revert Ho Hb.
  induction H as [w env cur w' rest Hs Hge
                 |w env cur w1 env1 w' rest Hs Hlt _ IH]; intros Ho Hb.
  - destruct (atomic_read_instant _ _ _ _ _ Ho Hb Hs)
      as (used & p & E & Hc & Hov & _).
    exists used, p, cur. rewrite <- at_count_ticks. auto.
  - destruct (atomic_read_instant _ _ _ _ _ Ho Hb Hs)
      as (used & p & E & _ & _ & W1).
    assert (Hb1 : brisk env1).
    { rewrite E in Hb. apply brisk_app in Hb as (_ & Hb).
      intros q Hq. apply Hb. now right. }
    assert (Ho1 : uint32 (overflow_counter (glob w1))).
    { rewrite W1. unfold at_count.
      repeat apply advance_overflow_range. apply elapse_overflow_range, Ho. }
    destruct (IH Ho1 Hb1) as (mid & plast & c & E1 & Hge & Hi).
    exists (used ++ p :: mid), plast, c.
    split; [rewrite E, E1, <- app_assoc; reflexivity|]. split; [exact Hge|].
    cbv zeta in *. rewrite W1, at_count_ticks, <- !advance_add in Hi.
    replace (duration (used ++ p :: mid) + d_ovf plast + d_cnt plast)%N
      with (duration mid + d_ovf plast + d_cnt plast + d_chk p
            + (duration used + d_ovf p + d_cnt p))%N;
      [exact Hi|].
    rewrite duration_app. simpl. unfold span. lia.
Qed.

Lemma duration_le_app used rest : (duration used <= duration (used ++ rest))%N.
Proof. rewrite duration_app. lia. Qed.

(** The baseline sample of a delay and the sample on which its wait loop
    leaves, as positions of the timer: while the overflow counter does not
    wrap during the stretch [used] the delay reads, the second position is
    the first plus the ticks between the two reads of the counter. *)
Lemma baseline_and_last elapsed T w env used start w1 env1 w' rest :
  hw_ok w ->
  uint32 (overflow_counter (glob w)) ->
  brisk env ->
  env = used ++ rest ->
  stamp w + Z.of_N (duration used) < 2 ^ 32 * ARR (TIM1 w) ->
  atomic_read w env = Ret (start, w1, env1) ->
  spins elapsed T w1 env1 w' rest ->
  exists used0 p0 mid plast cur,
    env = used0 ++ p0 :: env1
    /\ env1 = mid ++ plast :: rest
    /\ T <= elapsed cur
    /\ 0 <= cnt start < ARR (TIM1 w)
    /\ 0 <= cnt cur < ARR (TIM1 w)
    /\ ovf cur * ARR (TIM1 w) + cnt cur
       = ovf start * ARR (TIM1 w) + cnt start
         + Z.of_N (d_chk p0 + duration mid + d_ovf plast + d_cnt plast).
Proof.
  intros Hok Ho Hb Hused Hlong Hs Hsp.
  destruct (atomic_read_instant _ _ _ _ _ Ho Hb Hs)
    as (used0 & p0 & E0 & Hc0 & Ho0 & W1).
  rewrite at_count_ticks in Hc0, Ho0, W1.
  set (n0 := (duration used0 + d_ovf p0 + d_cnt p0)%N) in *.
  assert (Hb1 : brisk env1).
  { rewrite E0 in Hb. apply brisk_app in Hb as (_ & Hb).
    intros q Hq. apply Hb. now right. }
  assert (Ho1 : uint32 (overflow_counter (glob w1)))
    by (rewrite W1; now repeat apply advance_overflow_range).
  destruct (spins_instant _ _ _ _ _ _ Ho1 Hb1 Hsp)
    as (mid & plast & cur & E1 & Hge & Hc1 & Hov1).
  set (m := (duration mid + d_ovf plast + d_cnt plast)%N) in *.
  exists used0, p0, mid, plast, cur.
  split; [exact E0|]. split; [exact E1|]. split; [exact Hge|].
  rewrite W1, <- !advance_add in Hc1, Hov1.
  set (n1 := (m + d_chk p0 + n0)%N) in *.
  assert (Hdur : (n1 <= duration used)%N).
  { assert (Eu : used = used0 ++ p0 :: mid ++ [plast]).
    { apply (app_inv_tail rest). rewrite <- Hused, E0, E1.
      rewrite <- !app_assoc. simpl. rewrite <- app_assoc. reflexivity. }
    rewrite Eu, duration_app. simpl. rewrite duration_app. simpl.
    unfold n1, m, n0, span. lia. }
  destruct (stamp_advance_exact n0 w Hok Ho) as (S0 & _); [lia|].
  destruct (stamp_advance_exact n1 w Hok Ho) as (S1 & _); [lia|].
  pose proof (advance_ok n0 w Hok) as K0.
  pose proof (advance_ok n1 w Hok) as K1.
  unfold hw_ok in K0, K1. unfold stamp in S0, S1.
  rewrite (fr_ARR _ _ (advance_frame n0 w)) in S0, K0.
  rewrite (fr_ARR _ _ (advance_frame n1 w)) in S1, K1.
  rewrite <- Hc0 in S0, K0. rewrite <- Ho0 in S0.
  rewrite <- Hc1 in S1, K1. rewrite <- Hov1 in S1.
  split; [exact K0|]. split; [exact K1|].
  rewrite S1, S0. unfold n1, m. lia.
Qed.

(** X14.  In a library configured with the timer's reload value (with the
    count below it, and fewer than 2^32 ticks within any one sampling
    attempt), and as long as the 32-bit overflow counter does not wrap
    during the stretch of the trace the call reads,
    [TimerLib_DelayUS_32Short] returns 0 only after at least its target
    [us * us_per_tick] of timer ticks has passed between the read of the
    counter in the attempt that gave its baseline and the read of the
    counter in the attempt on whose sample it returned. *)
Theorem short_delay_lasts_target us w env used w' rest :
  hw_ok w ->
  uint32 (overflow_counter (glob w)) ->
  reload_matches w ->
  brisk env ->
  env = used ++ rest ->
  stamp w + Z.of_N (duration used) < 2 ^ 32 * ARR (TIM1 w) ->
  TimerLib_DelayUS_32Short us w env = Ret (0, w', rest) ->
  waited w env rest (wrap32 (us * us_per_tick (optim (glob w)))).
Proof.
  intros Hok Ho Hm Hb Hused Hlong H.
  unfold TimerLib_DelayUS_32Short in H.
  apply bind_Ret_inv in H as (start & w1 & env1 & Hs & H).
  pose proof (atomic_read_frame _ _ _ _ _ Hs) as [_ Fa _ Fo FA].
  unfold mbind at 1 in H. unfold M_bind at 1, get_glob in H.
  destruct (negb (short_delay_ok (glob w1) us)); [discriminate|].
  cbv zeta in H. apply bind_Ret_inv in H as ([] & w2 & env2 & Hsp & H).
  injection H as <- <-.
  apply (spin_until_spins (short_elapsed (arr_value (glob w1)) start)) in Hsp.
  rewrite Fo, Fa, Hm in Hsp.
  destruct (baseline_and_last _ _ _ _ _ _ _ _ _ _
              Hok Ho Hb Hused Hlong Hs Hsp)
    as (used0 & p0 & mid & plast & cur & E0 & E1 & Hge & K0 & K1 & S).
  exists start, w1, env1, used0, p0, mid, plast.
  split; [exact Hs|]. split; [exact E0|]. split; [exact E1|].
  eapply Z.le_trans; [exact Hge|].
  apply short_elapsed_le_real; [exact K0 | exact K1 | lia | exact S].
Qed.

Lemma short_delay_lasts_target_witness :
  waited world_8MHz [still; mkProbe 7992 0 0; still] [still]
         (wrap32 (999 * 8)).
Proof.
  assert (Hok : hw_ok world_8MHz) by (unfold hw_ok; simpl; lia).
  assert (Ho : uint32 (overflow_counter (glob world_8MHz)))
    by (unfold uint32; simpl; lia).
  assert (Hb : brisk [still; mkProbe 7992 0 0; still])
    by (intros p [<-|[<-|[<-|[]]]]; simpl; lia).
  refine (short_delay_lasts_target 999 world_8MHz
            [still; mkProbe 7992 0 0; still] [still; mkProbe 7992 0 0]
            (advance 7992 world_8MHz) [still] Hok Ho eq_refl Hb eq_refl _ _).
  - vm_compute. reflexivity.
  - vm_compute. reflexivity.
Defined.

(** ** The short delay can hang *)

(** From a baseline at count [cnt start] the single-wrap formula never
    shows more than [2 * reload - 1 - cnt start]. *)
Lemma short_elapsed_tops_out A start cur n :
  0 <= cnt start < A -> 0 <= cnt cur < A -> 0 <= n ->
  ovf cur * A + cnt cur = ovf start * A + cnt start + n ->
  short_elapsed A start cur <= 2 * A - 1 - cnt start.
Proof.
  intros H0 H1 Hn E. unfold short_elapsed.
  destruct (Z.gtb_spec (ovf cur) (ovf start)) as [Hgt|Hle].
  - replace (wrap32 (wrap32 (A - cnt start) + cnt cur))
      with (wrap32 (A - cnt start + cnt cur)) by wrap32_ring.
    eapply Z.le_trans; [apply wrap32_le; lia|]. lia.
  - assert (ovf cur = ovf start) by nia.
    eapply Z.le_trans; [apply wrap32_le; nia|]. nia.
Qed.

(** C4 (defect).  The three preconditions of [TimerLib_DelayUS_32Short]
    do not ensure that it completes.  In a library configured with the
    timer's reload value, with [us_optimized], [us < 1000] and
    [overflowPreMS <= 1] all true, a call whose target
    [us * us_per_tick] exceeds [2 * reload - 1 - baseline count] neither
    returns -1 nor ever returns 0: it is still spinning at the end of
    every trace during which the overflow counter does not wrap. *)
Theorem DelayUS_32Short_stuck us w env start w1 env1 :
  hw_ok w ->
  uint32 (overflow_counter (glob w)) ->
  reload_matches w ->
  brisk env ->
  stamp w + Z.of_N (duration env) < 2 ^ 32 * ARR (TIM1 w) ->
  atomic_read w env = Ret (start, w1, env1) ->
  us_optimized (optim (glob w)) = true /\ us < 1000
  /\ overflowPreMS (optim (glob w)) <= 1 ->
  2 * arr_value (glob w) - 1 - cnt start
  < wrap32 (us * us_per_tick (optim (glob w))) ->
  TimerLib_DelayUS_32Short us w env = Spin.
Proof.
  intros Hok Ho Hm Hb Hlong Hs Hpre Hfar.
  pose proof (atomic_read_frame _ _ _ _ _ Hs) as [_ Fa _ Fo _].
  assert (Hguard : short_delay_ok (glob w1) us = true).
  { apply short_delay_ok_spec. now rewrite Fo. }
  unfold TimerLib_DelayUS_32Short. rewrite (bind_Ret _ _ _ _ _ _ _ Hs).
  unfold mbind at 1. unfold M_bind at 1. unfold get_glob.
  rewrite Hguard. cbv zeta. change (negb true) with false. cbv iota.
  unfold mbind, M_bind.
  destruct (spin_until _ w1 env1) as [[[[] w2] env2]|e|] eqn:Hrun.
  - exfalso.
    apply (spin_until_spins (short_elapsed (arr_value (glob w1)) start)
             (wrap32 (us * us_per_tick (optim (glob w1))))) in Hrun.
    rewrite Fo, Fa, Hm in Hrun.
    destruct (atomic_read_elapse _ _ _ _ _ Hs) as (u1 & E1 & _).
    destruct (spins_elapse _ _ _ _ _ _ Hrun) as (u2 & E2 & _).
    assert (Hused : env = (u1 ++ u2) ++ env2)
      by (rewrite E1, E2, app_assoc; reflexivity).
    assert (Hshort : stamp w + Z.of_N (duration (u1 ++ u2))
                     < 2 ^ 32 * ARR (TIM1 w)).
    { pose proof (duration_le_app (u1 ++ u2) env2) as Hle.
      rewrite <- Hused in Hle. lia. }
    destruct (baseline_and_last _ _ _ _ _ _ _ _ _ _
                Hok Ho Hb Hused Hshort Hs Hrun)
      as (used0 & p0 & mid & plast & cur & _ & _ & Hge & K0 & K1 & S).
    assert (Hn : 0 <= Z.of_N (d_chk p0 + duration mid + d_ovf plast
                               + d_cnt plast)) by lia.
    pose proof (short_elapsed_tops_out _ _ _ _ K0 K1 Hn S) as Htop.
    rewrite Hm in Hfar. lia.
  - exfalso.
    exact (spin_until_no_fault (short_elapsed (arr_value (glob w1)) start)
             (wrap32 (us * us_per_tick (optim (glob w1)))) w1 env1 e Hrun).
  - reflexivity.
Qed.

Lemma DelayUS_32Short_stuck_witness :
  TimerLib_DelayUS_32Short 999 world_late
    [still; mkProbe 5000 0 0; mkProbe 66000 0 0; mkProbe 100000 0 0]
  = Spin.
Proof.
  assert (Hok : hw_ok world_late) by (unfold hw_ok; simpl; lia).
  assert (Ho : uint32 (overflow_counter (glob world_late)))
    by (unfold uint32; simpl; lia).
  assert (Hb : brisk [still; mkProbe 5000 0 0; mkProbe 66000 0 0;
                      mkProbe 100000 0 0])
    by (intros p [<-|[<-|[<-|[<-|[]]]]]; simpl; lia).
  refine (DelayUS_32Short_stuck 999 world_late
            [still; mkProbe 5000 0 0; mkProbe 66000 0 0; mkProbe 100000 0 0]
            (mkSample 60000 0) world_late
            [mkProbe 5000 0 0; mkProbe 66000 0 0; mkProbe 100000 0 0]
            Hok Ho eq_refl Hb _ eq_refl _ _).
  - vm_compute. reflexivity.
  - split; [reflexivity|]. split; [reflexivity|].
    vm_compute. intros H. discriminate H.
  - vm_compute. reflexivity.
Defined.

(** ** The delay loop and the unbounded formula *)



